(** * An IRC relay bot: conversation window, prompt rendering, reply splitting

    A shallow embedding of [main.go].  Go strings are byte strings and are
    embedded as [string]; [len] is the byte length.  The bot is the record
    [IRCBot]: its configuration, its HTTP client (a function from the
    requested URL to the reply of the text service), the conversation
    [context], and the [trace] of the calls it has made on the network
    (requests to the text service, lines sent to IRC, pauses).  Methods take
    the bot and return the bot they leave behind.  Lines written to the
    process log are not part of the model. *)

From Stdlib Require Import ZArith List String Ascii Bool Arith Lia DecimalString.
Import ListNotations.

#[local] Open Scope string_scope.
#[local] Open Scope list_scope.

(** ** Byte strings *)

Module Str.

(** [len(s)] of Go, a signed integer. *)
Definition len (s : string) : Z := Z.of_nat (String.length s).

Definition code (c : ascii) : N := N_of_ascii c.

Definition is_empty (s : string) : bool :=
  match s with EmptyString => true | String _ _ => false end.

Fixpoint drop (n : nat) (s : string) : string :=
  match n, s with
  | O, _ => s
  | S _, EmptyString => EmptyString
  | S k, String _ s' => drop k s'
  end.

Fixpoint take (n : nat) (s : string) : string :=
  match n, s with
  | O, _ => EmptyString
  | S _, EmptyString => EmptyString
  | S k, String c s' => String c (take k s')
  end.

(** One byte appended at the end of a string. *)
Definition snoc (s : string) (c : ascii) : string := s ++ String c EmptyString.

Fixpoint repeat (s : string) (n : nat) : string :=
  match n with
  | O => EmptyString
  | S k => s ++ repeat s k
  end.

End Str.

Import Str.

(** ** Data model *)

(** [type Message struct { Role, Content string }] *)
Record Message : Type := mkMessage { Role : string; Content : string }.

(** A compiled trigger pattern is used only through [MatchString]. *)
Record Regexp : Type := mkRegexp { MatchString : string -> bool }.

(** [type Config struct]; a nil [TriggerPattern] is [None]. *)
Record Config : Type := mkConfig {
  Server : string;
  Port : string;
  Channel : string;
  Nick : string;
  BotName : string;
  Persona : string;
  TriggerPattern : option Regexp
}.

(** What [http.Client.Get] followed by reading the body can yield: no
    response at all, or a status code with the bytes read from the body and
    the error, if any, that ended the read. *)
Inductive HttpReply : Type :=
| TransportError (cause : string)
| Response (StatusCode : Z) (body : string) (readErr : option string).

(** Calls made on the outside world, in the order they are made. *)
Inductive Effect : Type :=
| Get (url : string)
| Privmsg (target message : string)
| Sleep (milliseconds : Z).

(** [type IRCBot struct] *)
Record IRCBot : Type := mkBot {
  config : Config;
  client : string -> HttpReply;
  context : list Message;
  trace : list Effect
}.

Definition set_context (bot : IRCBot) (ctx : list Message) : IRCBot :=
  {| config := config bot; client := client bot; context := ctx; trace := trace bot |}.

Definition emit (bot : IRCBot) (es : list Effect) : IRCBot :=
  {| config := config bot; client := client bot; context := context bot;
     trace := trace bot ++ es |}.

(** ** The context buffer *)

(** [NewIRCBot]: the window starts with the persona as a ["system"] entry
    when the persona is not the empty string, and empty otherwise. *)
Definition NewIRCBot (cfg : Config) (http : string -> HttpReply) : IRCBot :=
  let bot := {| config := cfg; client := http; context := []; trace := [] |} in
  if is_empty (Persona cfg) then bot
  else set_context bot (context bot ++ [{| Role := "system"; Content := Persona cfg |}]).

(** The slice surgery of [addToContext] on the window alone:
    [append(ctx, message)], and when that is longer than 19,
    [append([]Message{ctx[0]}, ctx[len(ctx)-18:]...)]. *)
Definition appendBounded (ctx : list Message) (message : Message) : list Message :=
  let ctx1 := ctx ++ [message] in
  if (19 <? List.length ctx1)%nat then
    match ctx1 with
    | systemMsg :: _ => systemMsg :: skipn (List.length ctx1 - 18) ctx1
    | [] => ctx1
    end
  else ctx1.

Definition addToContext (bot : IRCBot) (message : Message) : IRCBot :=
  set_context bot (appendBounded (context bot) message).

(** A run of appends, oldest first. *)
Definition addAll (bot : IRCBot) (ms : list Message) : IRCBot :=
  fold_left addToContext ms bot.

(** ** The Go library functions the bot calls *)

Module GoStrings.

(** The byte length test [c < utf8.RuneSelf]. *)
Definition isASCIIByte (c : ascii) : bool := (code c <? 128)%N.

Fixpoint isASCII (s : string) : bool :=
  match s with
  | EmptyString => true
  | String c s' => isASCIIByte c && isASCII s'
  end.

Definition isUpperByte (c : ascii) : bool := ((65 <=? code c) && (code c <=? 90))%N.

Fixpoint hasUpper (s : string) : bool :=
  match s with
  | EmptyString => false
  | String c s' => isUpperByte c || hasUpper s'
  end.

(** [c += 'a' - 'A'] on the bytes ['A'..'Z']. *)
Definition lowerByte (c : ascii) : ascii :=
  if isUpperByte c then ascii_of_N (code c + 32) else c.

Fixpoint mapBytes (f : ascii -> ascii) (s : string) : string :=
  match s with
  | EmptyString => EmptyString
  | String c s' => String (f c) (mapBytes f s')
  end.

(** The case tables of Unicode live outside the program: what
    [strings.Map(unicode.ToLower, s)] returns on a string that has a byte
    outside ASCII is a parameter of the model. *)
Class Unicode : Type := { mapToLower : string -> string }.

(** [strings.ToLower]: the ASCII path of the library is spelled out. *)
Definition ToLower `{Unicode} (s : string) : string :=
  if isASCII s then
    if hasUpper s then mapBytes lowerByte s else s
  else mapToLower s.

(** [strings.HasPrefix] and [strings.TrimPrefix]. *)
Definition HasPrefix (s p : string) : bool := String.prefix p s.

Definition TrimPrefix (s p : string) : string :=
  if HasPrefix s p then drop (String.length p) s else s.

(** [strings.Contains]: some suffix of [s] starts with [substr]. *)
Fixpoint Contains (s substr : string) : bool :=
  HasPrefix s substr ||
  match s with
  | EmptyString => false
  | String _ s' => Contains s' substr
  end.

(** The table [asciiSpace]: tab, line feed, vertical tab, form feed,
    carriage return, space. *)
Definition asciiSpace (c : ascii) : bool :=
  ((9 <=? code c) && (code c <=? 13) || (code c =? 32))%N.

(** [unicode.IsSpace] read on the UTF-8 bytes: the number of bytes of the
    white-space rune that [s] starts with, 0 when it starts with none.  Past
    ASCII these are U+0085 and U+00A0 (C2 85, C2 A0), U+1680 (E1 9A 80),
    U+2000..U+200A, U+2028, U+2029, U+202F (E2 80 xx), U+205F (E2 81 9F) and
    U+3000 (E3 80 80).  Each encoding opens with a byte that is never a
    continuation byte, so that reading byte by byte finds the same runes as
    Go's decoder does. *)
Definition spaceWidth (s : string) : nat :=
  match s with
  | EmptyString => 0
  | String c0 s1 =>
    if asciiSpace c0 then 1 else
    match s1 with
    | EmptyString => 0
    | String c1 s2 =>
      let b0 := code c0 in
      let b1 := code c1 in
      if ((b0 =? 194) && ((b1 =? 133) || (b1 =? 160)))%N then 2 else
      match s2 with
      | EmptyString => 0
      | String c2 _ =>
        let b2 := code c2 in
        if (((b0 =? 225) && (b1 =? 154) && (b2 =? 128))
            || ((b0 =? 226) && (b1 =? 128) &&
                (((128 <=? b2) && (b2 <=? 138)) || (b2 =? 168) || (b2 =? 169) || (b2 =? 175)))
            || ((b0 =? 226) && (b1 =? 129) && (b2 =? 159))
            || ((b0 =? 227) && (b1 =? 128) && (b2 =? 128)))%N
        then 3 else 0
      end
    end
  end.

Definition flushField (cur : string) : list string :=
  if is_empty cur then [] else [cur].

(** [strings.Fields]: the maximal runs free of white space.  [skip] counts
    the bytes still to pass of the white-space rune being read and [cur] is
    the field read so far. *)
Fixpoint fieldsFrom (skip : nat) (cur : string) (s : string) : list string :=
  match s with
  | EmptyString => flushField cur
  | String c s' =>
    match skip with
    | S n => fieldsFrom n cur s'
    | O =>
      match spaceWidth s with
      | O => fieldsFrom 0 (snoc cur c) s'
      | S n => flushField cur ++ fieldsFrom n EmptyString s'
      end
    end
  end.

Definition Fields (s : string) : list string := fieldsFrom 0 EmptyString s.

(** [strings.TrimLeftFunc(s, unicode.IsSpace)] *)
Fixpoint trimLeftFrom (skip : nat) (s : string) : string :=
  match s with
  | EmptyString => EmptyString
  | String _ s' =>
    match skip with
    | S n => trimLeftFrom n s'
    | O =>
      match spaceWidth s with
      | O => s
      | S n => trimLeftFrom n s'
      end
    end
  end.

(** [s] is white-space runes from end to end. *)
Fixpoint allSpaceFrom (skip : nat) (s : string) : bool :=
  match s with
  | EmptyString => true
  | String _ s' =>
    match skip with
    | S n => allSpaceFrom n s'
    | O =>
      match spaceWidth s with
      | O => false
      | S n => allSpaceFrom n s'
      end
    end
  end.

(** [strings.TrimRightFunc(s, unicode.IsSpace)]: cut where the rest is
    white space only. *)
Fixpoint trimRight (s : string) : string :=
  match s with
  | EmptyString => EmptyString
  | String c s' => if allSpaceFrom 0 s then EmptyString else String c (trimRight s')
  end.

(** [strings.TrimSpace] *)
Definition TrimSpace (s : string) : string := trimRight (trimLeftFrom 0 s).

End GoStrings.

Module GoURL.

Definition hexDigit (n : N) : ascii :=
  if (n <? 10)%N then ascii_of_N (48 + n) else ascii_of_N (55 + n).

(** [shouldEscape(c, encodeQueryComponent)]: letters, digits and [-_.~]
    are kept. *)
Definition shouldEscape (c : ascii) : bool :=
  let n := code c in
  negb (((97 <=? n) && (n <=? 122)) || ((65 <=? n) && (n <=? 90)) || ((48 <=? n) && (n <=? 57))
        || (n =? 45) || (n =? 95) || (n =? 46) || (n =? 126))%N.

(** [url.QueryEscape]: a space becomes [+], any other escaped byte [%XX]. *)
Fixpoint QueryEscape (s : string) : string :=
  match s with
  | EmptyString => EmptyString
  | String c s' =>
    if shouldEscape c then
      if (code c =? 32)%N then String "+" (QueryEscape s')
      else
        String "%" (String (hexDigit (code c / 16))
                      (String (hexDigit (code c mod 16)) (QueryEscape s')))
    else String c (QueryEscape s')
  end.

End GoURL.

(** ** Regular expressions

    The four patterns of the program are built from byte classes,
    concatenation, ordered choice and greedy repetition.  Matching is the
    backtracking search whose first answer is the leftmost-first match that
    Go's [regexp] reports.  Every pattern here opens with an ASCII byte or
    with the first byte of a rune, so that matching on bytes and matching on
    runes agree. *)

Module Re.

Inductive regex : Type :=
| Eps
| Byte (p : ascii -> bool)
| Cat (r1 r2 : regex)
| Alt (r1 r2 : regex)
| Star (r : regex).

(** [r+] *)
Definition Plus (r : regex) : regex := Cat r (Star r).

(** The bytes of [s], one after the other. *)
Fixpoint lit (s : string) : regex :=
  match s with
  | EmptyString => Eps
  | String c s' => Cat (Byte (Ascii.eqb c)) (lit s')
  end.

(** The loop of a greedy repetition: [step] matches the repeated pattern
    once.  The loop goes round again only after an iteration that consumed
    input, and hands over to [k] when no further round leads to a match. *)
Fixpoint starLoop (step : string -> (string -> option string) -> option string)
  (k : string -> option string) (fuel : nat) (s : string) {struct fuel} : option string :=
  match fuel with
  | O => k s
  | S fuel' =>
    match step s (fun s' =>
            if (String.length s' <? String.length s)%nat then starLoop step k fuel' s'
            else None) with
    | Some rest => Some rest
    | None => k s
    end
  end.

(** [run r s k]: match [r] at the head of [s], hand what follows the match
    to [k], and on failure of [k] try the next way of matching. *)
Fixpoint run (r : regex) (s : string) (k : string -> option string) {struct r}
  : option string :=
  match r with
  | Eps => k s
  | Byte p =>
    match s with
    | EmptyString => None
    | String c s' => if p c then k s' else None
    end
  | Cat r1 r2 => run r1 s (fun s' => run r2 s' k)
  | Alt r1 r2 =>
    match run r1 s k with
    | Some rest => Some rest
    | None => run r2 s k
    end
  | Star r1 => starLoop (run r1) k (String.length s) s
  end.

(** What follows the match of [r] at the head of [s], if there is one. *)
Definition matchAt (r : regex) (s : string) : option string := run r s Some.

(** The leftmost match in [s]: the text before it and the text after it. *)
Fixpoint search (r : regex) (s : string) : option (string * string) :=
  match matchAt r s with
  | Some rest => Some (EmptyString, rest)
  | None =>
    match s with
    | EmptyString => None
    | String c s' =>
      match search r s' with
      | Some (gap, rest) => Some (String c gap, rest)
      | None => None
      end
    end
  end.

(** The successive matches of [FindAllStringIndex(s, -1)], kept as the
    texts between them and the text after the last.  Each search starts where
    the match before it ended.  None of the program's patterns matches the
    empty string; the scan stops at a match that leaves all of [s]. *)
Fixpoint scan (fuel : nat) (r : regex) (s : string) : list string * string :=
  match fuel with
  | O => ([], s)
  | S fuel' =>
    match search r s with
    | None => ([], s)
    | Some (gap, rest) =>
      if (String.length rest <? String.length s)%nat then
        let (gaps, tail) := scan fuel' r rest in (gap :: gaps, tail)
      else ([], s)
    end
  end.

(** [re.ReplaceAllString(src, repl)] for a [repl] without [$]. *)
Definition ReplaceAllString (r : regex) (src repl : string) : string :=
  let (gaps, tail) := scan (String.length src) r src in
  String.concat repl (gaps ++ [tail]).

(** [re.Split(s, -1)]: the text before each match, then the text after the
    last one, which is there also when it is empty. *)
Definition Split (r : regex) (s : string) : list string :=
  let (gaps, tail) := scan (String.length s) r s in
  gaps ++ [tail].

(** [\s] of Go's syntax: [[\t\n\f\r ]], without the vertical tab. *)
Definition isSpace (c : ascii) : bool :=
  let n := code c in ((n =? 9) || (n =? 10) || (n =? 12) || (n =? 13) || (n =? 32))%N.

Definition oneOf (set : string) (c : ascii) : bool :=
  existsb (Ascii.eqb c) (list_ascii_of_string set).

Definition bytes (codes : list N) : string :=
  string_of_list_ascii (map ascii_of_N codes).

(** One byte of a literal of ASCII bytes under [(?i)].  The letters of ASCII
    match in both cases; [k] and [s] also match the runes that fold onto
    them, U+212A (E2 84 AA) and U+017F (C5 BF); any other byte of ASCII
    matches itself.  This is the whole of Go's folding for a literal of ASCII
    bytes.  A byte beyond ASCII is matched as itself, which is not what Go
    does with the rune it belongs to (Go folds the cased letters beyond ASCII
    from the tables of Unicode, and refuses a pattern that is not UTF-8):
    the pattern of a nick that holds such bytes is [compileOther] of
    [Call], and what is proved of [mention] is proved for nicks of ASCII
    bytes. *)
Definition foldByte (c : ascii) : regex :=
  let l := GoStrings.lowerByte c in
  let same := Byte (fun b => Ascii.eqb (GoStrings.lowerByte b) l) in
  if Ascii.eqb l "k" then Alt same (lit (bytes [226; 132; 170]%N))
  else if Ascii.eqb l "s" then Alt same (lit (bytes [197; 191]%N))
  else same.

(** [(?i)] in front of [regexp.QuoteMeta(s)]: the text [s], in any case. *)
Fixpoint foldLit (s : string) : regex :=
  match s with
  | EmptyString => Eps
  | String c s' => Cat (foldByte c) (foldLit s')
  end.

(** [(?i)<nick>[,:]\s*] *)
Definition mention (nick : string) : regex :=
  Cat (foldLit nick) (Cat (Byte (oneOf ",:")) (Star (Byte isSpace))).

(** [<[^>]*>] *)
Definition tag : regex :=
  Cat (Byte (Ascii.eqb "<"))
      (Cat (Star (Byte (fun c => negb (Ascii.eqb c ">")))) (Byte (Ascii.eqb ">"))).

(** [\s+] *)
Definition spaces : regex := Plus (Byte isSpace).

(** [[.!?]+\s+] *)
Definition sentenceEnd : regex := Cat (Plus (Byte (oneOf ".!?"))) (Plus (Byte isSpace)).

End Re.

(** ** The responder *)

Import GoStrings.

Section Responder.

#[local] Open Scope string_scope.

Context `{Unicode}.

(** A method: it reads and updates the bot and returns a value. *)
Definition M (A : Type) : Type := IRCBot -> A * IRCBot.

Definition ret {A : Type} (a : A) : M A := fun bot => (a, bot).

Definition bind {A B : Type} (m : M A) (f : A -> M B) : M B :=
  fun bot => let (a, bot') := m bot in f a bot'.

Definition gets {A : Type} (f : IRCBot -> A) : M A := fun bot => (f bot, bot).

Definition modify (f : IRCBot -> IRCBot) : M unit := fun bot => (tt, f bot).

(** A call on the connection or on the client, recorded in the trace. *)
Definition call (e : Effect) : M unit := modify (fun bot => emit bot [e]).

Notation "x <- m ;; k" := (bind m (fun x => k))
  (at level 61, m at next level, right associativity).
Notation "m ;;; k" := (bind m (fun _ => k))
  (at level 61, right associativity).

(** The event of a [PRIVMSG]: the sender and the arguments, of which the
    first is the target.  [e.Message()] is the last argument. *)
Record Event : Type := mkEvent {
  EvNick : string;
  EvTarget : string;
  EvMore : list string
}.

Definition Arguments (e : Event) : list string := EvTarget e :: EvMore e.

Definition EvMessage (e : Event) : string := last (Arguments e) EmptyString.

(** [shouldRespondToMessage] *)
Definition shouldRespondToMessage (cfg : Config) (message : string) : bool :=
  if Contains (ToLower message) (ToLower (Nick cfg)) then true
  else
    match TriggerPattern cfg with
    | Some pattern => MatchString pattern message
    | None => false
    end.

(** [cleanMessage], as it returns for a nick that is an IRC nickname (ASCII
    bytes, no longer than a line).  For any other nick the call may panic in
    [regexp.MustCompile] and folds case by the tables of Unicode: the call
    with these outcomes is [Call.cleanMessage] below. *)
Definition cleanMessage (cfg : Config) (message : string) : string :=
  let cleanMsg := Re.ReplaceAllString (Re.mention (Nick cfg)) message "" in
  let cleanMsg := TrimSpace cleanMsg in
  if is_empty cleanMsg then "Hello!" else cleanMsg.

(** [strings.Builder.WriteString] *)
Definition WriteString (b s : string) : string := b ++ s.

Definition newline : string := String (ascii_of_N 10) EmptyString.

(** The body of the loop of [buildPrompt]; the [switch] has no default. *)
Definition writeEntry (promptBuilder : string) (msg : Message) : string :=
  if Role msg =? "system" then
    WriteString (WriteString (WriteString promptBuilder "System: ") (Content msg)) newline
  else if Role msg =? "user" then
    WriteString (WriteString (WriteString promptBuilder "User: ") (Content msg)) newline
  else if Role msg =? "assistant" then
    WriteString (WriteString (WriteString promptBuilder "Assistant: ") (Content msg)) newline
  else promptBuilder.

(** [buildPrompt] *)
Definition buildPrompt : M string :=
  ctx <- gets context ;;
  let promptBuilder := fold_left writeEntry ctx EmptyString in
  ret (WriteString promptBuilder "Assistant: ").

(** The loop over [prefixes] in [cleanAIResponse]: the first prefix found
    is cut and the loop is left. *)
Fixpoint trimFirstPrefix (prefixes : list string) (response : string) : string :=
  match prefixes with
  | [] => response
  | prefix :: rest =>
    if HasPrefix response prefix then TrimPrefix response prefix
    else trimFirstPrefix rest response
  end.

(** [cleanAIResponse] *)
Definition cleanAIResponse (response : string) : string :=
  let response := trimFirstPrefix ["Assistant: "; "Bot: "; "AI: "] response in
  let response := Re.ReplaceAllString Re.tag response "" in
  let response := Re.ReplaceAllString Re.spaces response " " in
  TrimSpace response.

(** The [(string, error)] of [getAIResponse]; an error is its message. *)
Inductive result : Type :=
| Ok (response : string)
| Err (message : string).

Definition decimal (n : Z) : string := NilZero.string_of_int (Z.to_int n).

(** [bot.addToContext] as a method. *)
Definition addToContextM (message : Message) : M unit :=
  modify (fun bot => addToContext bot message).

(** [getAIResponse] *)
Definition getAIResponse (message fromNick : string) : M result :=
  let userMessage := {| Role := "user"; Content := fromNick ++ ": " ++ message |} in
  addToContextM userMessage ;;;
  prompt <- buildPrompt ;;
  let encodedPrompt := GoURL.QueryEscape prompt in
  let apiUrl := "https://text.pollinations.ai/" ++ encodedPrompt in
  call (Get apiUrl) ;;;
  resp <- gets (fun bot => client bot apiUrl) ;;
  match resp with
  | TransportError cause => ret (Err ("failed to make API request: " ++ cause))
  | Response StatusCode body readErr =>
    if negb (StatusCode =? 200)%Z then
      ret (Err ("API request failed with status " ++ decimal StatusCode ++ ": " ++ body))
    else
      match readErr with
      | Some cause => ret (Err ("failed to read response body: " ++ cause))
      | None =>
        let aiResponse := TrimSpace body in
        let aiResponse := cleanAIResponse aiResponse in
        addToContextM {| Role := "assistant"; Content := aiResponse |} ;;;
        ret (Ok aiResponse)
      end
  end.

(** The [if currentMsg != ""] before a send inside the loops: the line and
    the pause that follows it. *)
Definition flush (target currentMsg : string) (out : list Effect) : list Effect :=
  if is_empty currentMsg then out
  else (out ++ [Privmsg target currentMsg; Sleep 500])%list.

(** [currentMsg += " "] unless it is empty, then [currentMsg += piece]. *)
Definition extend (currentMsg piece : string) : string :=
  (if is_empty currentMsg then currentMsg else currentMsg ++ " ") ++ piece.

(** The body of the loop over [words]. *)
Definition wordStep (maxLength : Z) (target : string)
  (st : string * list Effect) (word : string) : string * list Effect :=
  let (currentMsg, out) := st in
  if (len currentMsg + len word + 1 <=? maxLength)%Z then (extend currentMsg word, out)
  else (word, flush target currentMsg out).

(** The body of the loop over [sentences]. *)
Definition sentenceStep (maxLength : Z) (target : string)
  (st : string * list Effect) (sentence : string) : string * list Effect :=
  let (currentMsg, out) := st in
  if (len currentMsg + len sentence + 1 <=? maxLength)%Z then (extend currentMsg sentence, out)
  else
    let out := flush target currentMsg out in
    if (len sentence >? maxLength)%Z then
      let words := Fields sentence in
      fold_left (wordStep maxLength target) words (EmptyString, out)
    else (sentence, out).

(** The calls that the body of [sendResponse] makes, with the local
    [maxLength] as an argument. *)
Definition outgoing (maxLength : Z) (target response : string) : list Effect :=
  if (len response <=? maxLength)%Z then [Privmsg target response]
  else
    let sentences := Re.Split Re.sentenceEnd response in
    let (currentMsg, out) :=
      fold_left (sentenceStep maxLength target) sentences (EmptyString, []) in
    if is_empty currentMsg then out else (out ++ [Privmsg target currentMsg])%list.

(** [sendResponse], where [maxLength := 400]. *)
Definition sendResponse (target response : string) : M unit :=
  modify (fun bot => emit bot (outgoing 400 target response)).

(** The lines among a run of calls. *)
Fixpoint lines (es : list Effect) : list string :=
  match es with
  | [] => []
  | Privmsg _ message :: es' => message :: lines es'
  | _ :: es' => lines es'
  end.

(** The chunks that a reply is sent as. *)
Definition segment (text : string) (maxLen : Z) : list string :=
  lines (outgoing maxLen EmptyString text).

(** The test of [handleMessage] between the check of the sender and the
    work: the message came to the bot alone, or it is one to answer. *)
Definition shouldRespond (cfg : Config) (e : Event) : bool :=
  let isPrivateMessage := EvTarget e =? Nick cfg in
  isPrivateMessage || shouldRespondToMessage cfg (EvMessage e).

(** [handleMessage] *)
Definition handleMessage (e : Event) : M unit :=
  cfg <- gets config ;;
  let nick := EvNick e in
  let target := EvTarget e in
  let message := EvMessage e in
  if nick =? Nick cfg then ret tt
  else
    let isPrivateMessage := target =? Nick cfg in
    let shouldRespond := isPrivateMessage || shouldRespondToMessage cfg message in
    if negb shouldRespond then ret tt
    else
      let cleanMessage := cleanMessage cfg message in
      r <- getAIResponse cleanMessage nick ;;
      match r with
      | Err _ => ret tt
      | Ok response =>
        let responseTarget := if isPrivateMessage then nick else target in
        sendResponse responseTarget response
      end.

End Responder.

(** ** [cleanMessage] as a call that may panic *)

Module Call.

#[local] Open Scope string_scope.

(** A continuation byte of UTF-8, [0x80..0xBF]. *)
Definition continuation (c : ascii) : bool := ((128 <=? code c) && (code c <=? 191))%N.

(** The accept ranges of [unicode/utf8] for the second byte of a sequence of
    three bytes: [0xA0..0xBF] after [0xE0], [0x80..0x9F] after [0xED],
    [0x80..0xBF] otherwise. *)
Definition second3 (b0 : N) (c : ascii) : bool :=
  (((if b0 =? 224 then 160 else 128) <=? code c)
   && (code c <=? (if b0 =? 237 then 159 else 191)))%N.

(** The same for a sequence of four bytes: [0x90..0xBF] after [0xF0],
    [0x80..0x8F] after [0xF4], [0x80..0xBF] otherwise. *)
Definition second4 (b0 : N) (c : ascii) : bool :=
  (((if b0 =? 240 then 144 else 128) <=? code c)
   && (code c <=? (if b0 =? 244 then 143 else 191)))%N.

(** [checkUTF8] of [regexp/syntax]: no step of [utf8.DecodeRuneInString]
    over [s] answers [RuneError] with width 1.  The first byte gives the
    length of the sequence ([0x00..0x7F]: 1, [0xC2..0xDF]: 2, [0xE0..0xEF]:
    3, [0xF0..0xF4]: 4, any other byte is refused), a sequence cut short by
    the end of the string is refused, and the bytes after the first lie in
    the accept ranges. *)
Fixpoint validUTF8 (s : string) : bool :=
  match s with
  | EmptyString => true
  | String c0 s1 =>
    let b0 := code c0 in
    if (b0 <? 128)%N then validUTF8 s1
    else if ((194 <=? b0) && (b0 <=? 223))%N then
      match s1 with
      | String c1 s2 => continuation c1 && validUTF8 s2
      | _ => false
      end
    else if ((224 <=? b0) && (b0 <=? 239))%N then
      match s1 with
      | String c1 (String c2 s3) => second3 b0 c1 && continuation c2 && validUTF8 s3
      | _ => false
      end
    else if ((240 <=? b0) && (b0 <=? 244))%N then
      match s1 with
      | String c1 (String c2 (String c3 s4)) =>
        second4 b0 c1 && continuation c2 && continuation c3 && validUTF8 s4
      | _ => false
      end
    else false
  end.

(** A nick that is an IRC nickname: bytes of ASCII, and no more of them than
    an IRC line holds (512).  The pattern [(?i)<nick>[,:]\s*] made of such a
    nick is valid UTF-8 and far below the size that the parser of
    [regexp/syntax] refuses as too large, so that [regexp.MustCompile]
    returns, and its letters fold as [Re.foldByte] says. *)
Definition ircNick (nick : string) : bool :=
  isASCII nick && (String.length nick <=? 512)%nat.

(** What [regexp.MustCompile] does with the pattern of a nick that is valid
    UTF-8 but no IRC nickname depends on the library alone (the case
    tables of Unicode, the size limits of the parser) and is a parameter of
    the model: [None] when it panics, otherwise what [ReplaceAllString] of
    the compiled pattern makes of a message when the replacement is empty. *)
Class Patterns : Type := { compileOther : string -> option (string -> string) }.

(** A call returns a value or panics. *)
Inductive outcome : Type :=
| Returns (value : string)
| Panics.

(** [cleanMessage].  [regexp.MustCompile] panics on a pattern that is not
    valid UTF-8; [regexp.QuoteMeta] and the ASCII text around it add and
    remove no byte beyond ASCII, so that the pattern is valid exactly when
    the nick is. *)
Definition cleanMessage {patterns : Patterns} (cfg : Config) (message : string) : outcome :=
  let nick := Nick cfg in
  if negb (validUTF8 nick) then Panics
  else if ircNick nick then
    let cleanMsg := Re.ReplaceAllString (Re.mention nick) message "" in
    let cleanMsg := TrimSpace cleanMsg in
    Returns (if is_empty cleanMsg then "Hello!" else cleanMsg)
  else
    match compileOther nick with
    | None => Panics
    | Some replaceAll =>
      let cleanMsg := replaceAll message in
      let cleanMsg := TrimSpace cleanMsg in
      Returns (if is_empty cleanMsg then "Hello!" else cleanMsg)
    end.

End Call.

(** ** Sample data *)

Module Sample.

#[local] Open Scope string_scope.

(** A model of the Unicode parameter that leaves non-ASCII text alone. *)
Definition plainUnicode : Unicode := {| mapToLower := fun s => s |}.

Definition steve (persona : string) : Config :=
  {| Server := "irc.h4ks.com"; Port := "6697"; Channel := "#lobby"; Nick := "Steve";
     BotName := "Very cool and helpful bot"; Persona := persona; TriggerPattern := None |}.

(** A model of the pattern parameter in which the library refuses every
    pattern that is left to it. *)
Definition noOtherPatterns : Call.Patterns := {| Call.compileOther := fun _ => None |}.



(** A text service that cannot be reached, one that answers with a server
    error, and one that answers. *)
Definition unreachable (url : string) : HttpReply := TransportError "timeout".

Definition failing (url : string) : HttpReply := Response 503 "busy" None.

Definition answering (url : string) : HttpReply := Response 200 "Assistant: <b>hi</b>   there" None.

(** A reply of 407 bytes: 31 short sentences and a last word. *)
Definition greetings : string := Str.repeat "Hello there. " 31 ++ "Bye.".

(** A reply that holds a word longer than a line of 10 bytes. *)
Definition longWord : string := "aaaa bbbb cccc dddddddddddddd. ee ff".

(** The [k]-th turn of a conversation: users speak on odd turns. *)
Definition turn (k : nat) : Message :=
  {| Role := if Nat.odd k then "user" else "assistant";
     Content := NilZero.string_of_uint (Nat.to_uint k) |}.

(** Turns [a], [a+1], ..., [a+n-1]. *)
Definition turns (a n : nat) : list Message := map turn (seq a n).

End Sample.

(** ** Vocabulary of the properties *)

Module Spec.

#[local] Open Scope string_scope.

(** [w] is one of the words that [sendResponse] cuts a sentence of [text]
    into. *)
Definition WordOf (text w : string) : Prop :=
  exists sentence,
    In sentence (Re.Split Re.sentenceEnd text) /\ In w (Fields sentence).

(** No white-space rune starts anywhere in [w]. *)
Definition BlankFree (w : string) : Prop :=
  forall n : nat, spaceWidth (drop n w) = 0%nat.

(** How often the byte [c] occurs in [s]. *)
Fixpoint count (c : ascii) (s : string) : nat :=
  match s with
  | EmptyString => 0
  | String x s' => (if Ascii.eqb x c then 1 else 0) + count c s'
  end.

(** [s] with every run of white space reduced to one space and none left
    at either end. *)
Definition normalize (s : string) : string := String.concat " " (Fields s).

(** The roles that the program gives to entries. *)
Definition ValidRole (role : string) : Prop :=
  role = "system" \/ role = "user" \/ role = "assistant".

(** The label [serialize] writes for a role. *)
Definition roleLabel (role : string) : string :=
  if role =? "system" then "System"
  else if role =? "user" then "User"
  else "Assistant".

(** One entry as a line of the prompt. *)
Definition render (entry : Message) : string :=
  roleLabel (Role entry) ++ ": " ++ Content entry ++ newline.

(** The prompt as the specification words it: the entries in order, each on
    its line, then the cue for the reply. *)
Definition serialize (window : list Message) : string :=
  String.concat "" (map render window) ++ "Assistant: ".


(** The URL that [getAIResponse] requests for the window of [bot]. *)
Definition promptURL (bot : IRCBot) : string :=
  "https://text.pollinations.ai/" ++ GoURL.QueryEscape (fst (buildPrompt bot)).

(** The entry that [getAIResponse] appends for a message of [fromNick]. *)
Definition userEntry (fromNick message : string) : Message :=
  {| Role := "user"; Content := fromNick ++ ": " ++ message |}.

(** [sub] occurs in [s]. *)
Definition Substring (sub s : string) : Prop :=
  exists before after : string, s = before ++ sub ++ after.

(** The same calls, with every line addressed to [target]. *)
Definition retarget (target : string) (es : list Effect) : list Effect :=
  map (fun e => match e with Privmsg _ message => Privmsg target message | _ => e end) es.

Definition retargetState (target : string) (st : string * list Effect) :
  string * list Effect :=
  (fst st, retarget target (snd st)).

(** The state of the loops of [sendResponse], the line being built and the
    calls made so far, under a property [Cur] of a line being built and a
    property [Out] of the lines sent. *)
Definition Inv (Cur Out : string -> Prop) (st : string * list Effect) : Prop :=
  (fst st <> "" -> Cur (fst st)) /\ Forall Out (lines (snd st)).

(** The entries of a window carry the roles of the program. *)
Definition ValidWindow (window : list Message) : Prop :=
  Forall (fun entry => ValidRole (Role entry)) window.

(** *** Trimming *)

(** [v] is the encoding of one white-space rune. *)
Definition SpaceRune (v : string) : Prop :=
  v <> "" /\ spaceWidth v = String.length v.

(** [ws] is white-space runes from end to end. *)
Inductive White : string -> Prop :=
| White_nil : White ""
| White_cons (v ws : string) : SpaceRune v -> White ws -> White (v ++ ws).

(** [t] is [s] without the white space around it: white space was taken
    from both ends, and [t] neither opens nor ends with a white-space
    rune. *)
Definition Trimmed (s t : string) : Prop :=
  exists before after : string,
    s = before ++ t ++ after /\ White before /\ White after /\
    spaceWidth t = 0%nat /\
    (forall pre v : string, t = pre ++ v -> ~ SpaceRune v).

(** *** Salutations

    What [cleanMessage] removes, in the words of the specification: the
    nick in any case, then [:] or [,], then the white space that follows. *)

Definition kelvin : string := Re.bytes [226; 132; 170]%N.

Definition longS : string := Re.bytes [197; 191]%N.

(** The ways of writing the byte [c] of the nick: the same byte up to the
    case of ASCII letters, and for [k] and [s] the Kelvin sign and the long
    s, which Go folds onto them. *)
Inductive Spelling (c : ascii) : string -> Prop :=
| Spelling_byte (b : ascii) :
    lowerByte b = lowerByte c -> Spelling c (String b "")
| Spelling_kelvin :
    lowerByte c = "k"%char -> Spelling c kelvin
| Spelling_longS :
    lowerByte c = "s"%char -> Spelling c longS.

(** [text] is [nick] up to case. *)
Inductive SameFolded : string -> string -> Prop :=
| SameFolded_nil : SameFolded "" ""
| SameFolded_cons (c : ascii) (v text nick : string) :
    Spelling c v -> SameFolded text nick -> SameFolded (v ++ text) (String c nick).

(** Every byte of [ws] is white space for [\s]. *)
Fixpoint Blank (ws : string) : Prop :=
  match ws with
  | EmptyString => True
  | String c ws' => Re.isSpace c = true /\ Blank ws'
  end.

Definition StartsBlank (s : string) : Prop :=
  match s with
  | EmptyString => False
  | String c _ => Re.isSpace c = true
  end.

(** [s] opens with a salutation and [rest] is what follows it. *)
Inductive Salutation (nick : string) : string -> string -> Prop :=
| Salutation_intro (name : string) (sep : ascii) (ws rest : string) :
    SameFolded name nick ->
    sep = ":"%char \/ sep = ","%char ->
    Blank ws ->
    ~ StartsBlank rest ->
    Salutation nick (name ++ String sep (ws ++ rest)) rest.

(** [out] is [s] without its salutations, read from the left: where a
    salutation opens it is left out and reading goes on behind it, and any
    other byte is kept. *)
Inductive Stripped (nick : string) : string -> string -> Prop :=
| Stripped_end : Stripped nick "" ""
| Stripped_salutation (s rest out : string) :
    Salutation nick s rest -> Stripped nick rest out -> Stripped nick s out
| Stripped_byte (c : ascii) (s out : string) :
    (forall rest, ~ Salutation nick (String c s) rest) ->
    Stripped nick s out -> Stripped nick (String c s) (String c out).

(** [s] without the prefix [p], when it has it. *)
Fixpoint stripPrefix (p s : string) : option string :=
  match p with
  | EmptyString => Some s
  | String c p' =>
    match s with
    | EmptyString => None
    | String d s' => if Ascii.eqb c d then stripPrefix p' s' else None
    end
  end.

(** [s] without the spelling of [c] that it opens with. *)
Definition foldPrefix (c : ascii) (s : string) : option string :=
  match s with
  | EmptyString => None
  | String b s' =>
    if Ascii.eqb (lowerByte b) (lowerByte c) then Some s'
    else if Ascii.eqb (lowerByte c) "k" then stripPrefix kelvin s
    else if Ascii.eqb (lowerByte c) "s" then stripPrefix longS s
    else None
  end.

(** [s] without the nick, in any case, that it opens with. *)
Fixpoint foldLitPrefix (nick s : string) : option string :=
  match nick with
  | EmptyString => Some s
  | String c nick' =>
    match foldPrefix c s with
    | Some rest => foldLitPrefix nick' rest
    | None => None
    end
  end.

Fixpoint dropWhile (p : ascii -> bool) (s : string) : string :=
  match s with
  | EmptyString => EmptyString
  | String c s' => if p c then dropWhile p s' else s
  end.

(** What follows the salutation that [s] opens with. *)
Definition salutationRest (nick s : string) : option string :=
  match foldLitPrefix nick s with
  | Some (String sep rest) =>
    if Re.oneOf ",:" sep then Some (dropWhile Re.isSpace rest) else None
  | _ => None
  end.

End Spec.

(** ** Start-up *)

Module Startup.

#[local] Open Scope string_scope.

(** [getEnvOrDefault]: [env] is [os.Getenv], which yields the empty string
    for a variable that is not set. *)
Definition getEnvOrDefault (env : string -> string) (key defaultValue : string) : string :=
  let value := env key in
  if negb (is_empty value) then value else defaultValue.

Definition defaultPersona : string :=
  "You are a helpful and friendly IRC bot named Steve. Keep responses concise and engaging. You have a casual, slightly witty personality. Always be respectful and helpful.".

(** The configuration that [main] builds.  [compile] is [regexp.Compile],
    which yields no pattern for a source it rejects; [main] then logs the
    error and goes on without a trigger pattern. *)
Definition mainConfig (env : string -> string) (compile : string -> option Regexp) : Config :=
  let config :=
    {| Server := getEnvOrDefault env "IRC_SERVER" "irc.h4ks.com";
       Port := getEnvOrDefault env "IRC_PORT" "6697";
       Channel := getEnvOrDefault env "IRC_CHANNEL" "#lobby";
       Nick := getEnvOrDefault env "IRC_NICK" "SteveBot";
       BotName := getEnvOrDefault env "IRC_BOTNAME" "Very cool and helpful bot";
       Persona := getEnvOrDefault env "BOT_PERSONA" defaultPersona;
       TriggerPattern := None |} in
  let triggerPattern := getEnvOrDefault env "TRIGGER_PATTERN" "(?i)(steve|^!)" in
  if negb (is_empty triggerPattern) then
    match compile triggerPattern with
    | None => config
    | Some pattern =>
      {| Server := Server config; Port := Port config; Channel := Channel config;
         Nick := Nick config; BotName := BotName config; Persona := Persona config;
         TriggerPattern := Some pattern |}
    end
  else config.

(** The bot that [main] creates from it. *)
Definition mainBot (env : string -> string) (compile : string -> option Regexp)
  (http : string -> HttpReply) : IRCBot :=
  NewIRCBot (mainConfig env compile) http.

End Startup.

(** ** Vocabulary of the further properties *)

Module More.

#[local] Open Scope string_scope.

(** The last [n] entries of [l], all of [l] when it has fewer. *)
Definition lastN {A : Type} (n : nat) (l : list A) : list A :=
  skipn (List.length l - n) l.

(** An environment in which [key] is set to [value] and nothing else is. *)
Definition setenv (key value : string) (k : string) : string :=
  if k =? key then value else "".

(** A pattern compiler that accepts every source, as a pattern that matches
    nothing, and one that rejects every source. *)
Definition acceptAll (source : string) : option Regexp :=
  Some {| MatchString := fun _ => false |}.

Definition rejectAll (source : string) : option Regexp := None.

(** The role is one of the three that [buildPrompt] has a case for. *)
Definition knownRole (role : string) : bool :=
  (role =? "system") || (role =? "user") || (role =? "assistant").

(** Every byte of [s] satisfies [p]. *)
Fixpoint allBytes (p : ascii -> bool) (s : string) : bool :=
  match s with
  | EmptyString => true
  | String c s' => p c && allBytes p s'
  end.

(** The bytes that [url.QueryEscape] produces: the letters and digits of
    ASCII, [-], [_], [.], [~], the plus sign and the percent sign. *)
Definition urlSafe (c : ascii) : bool :=
  negb (GoURL.shouldEscape c) || Ascii.eqb c "+" || Ascii.eqb c "%".

(** The value of a hexadecimal digit. *)
Definition unhex (c : ascii) : N := if (code c <? 58)%N then code c - 48 else code c - 55.

(** Reading an escaped text back: a plus sign is a space, and a percent
    sign with two hexadecimal digits is the byte with that code. *)
Fixpoint unescape (s : string) : string :=
  match s with
  | EmptyString => EmptyString
  | String c s' =>
    if Ascii.eqb c "+" then String " " (unescape s')
    else if Ascii.eqb c "%" then
      match s' with
      | String h (String l rest) => String (ascii_of_N (16 * unhex h + unhex l)) (unescape rest)
      | _ => EmptyString
      end
    else String c (unescape s')
  end.

(** Lines sent to [target], each followed by the pause of 500 ms. *)
Definition paced (target : string) (cs : list string) : list Effect :=
  flat_map (fun c => [Privmsg target c; Sleep 500]) cs.

(** [s'] is an end of [s]. *)
Definition Suffix (s' s : string) : Prop := exists before : string, s = before ++ s'.

(** A byte that is no white space for [\s], or is the space itself. *)
Definition spaceOrInk (c : ascii) : bool := negb (Re.isSpace c) || Ascii.eqb c " ".

Definition ink (c : ascii) : bool := negb (Re.isSpace c).

(** The state of the loops of [sendResponse] when the line being built and
    the lines sent all satisfy [P]. *)
Definition Joined (P : string -> Prop) (st : string * list Effect) : Prop :=
  P (fst st) /\ Forall P (lines (snd st)).

(** The bot after the messages [es] were handled, the first of them
    first. *)
Definition handleAll `{Unicode} (es : list Event) (bot : IRCBot) : IRCBot :=
  fold_left (fun b e => snd (handleMessage e b)) es bot.

(** Where [handleMessage] sends the reply to [e]: back to the sender when
    the message came to the bot alone, and to its target otherwise. *)
Definition replyTarget (cfg : Config) (e : Event) : string :=
  if EvTarget e =? Nick cfg then EvNick e else EvTarget e.

(** [x] is a call on the IRC connection. *)
Definition onConnection (x : Effect) : Prop :=
  match x with
  | Get _ => False
  | _ => True
  end.

(** The words held by the state of the loops of [sendResponse]: those of
    the lines sent, then those of the line being built. *)
Definition wordsOf (st : string * list Effect) : list string :=
  (flat_map Fields (lines (snd st)) ++ Fields (fst st))%list.

(** The texts that a pattern matches. *)
Inductive Matches : Re.regex -> string -> Prop :=
| Matches_eps : Matches Re.Eps ""
| Matches_byte (p : ascii -> bool) (c : ascii) :
    p c = true -> Matches (Re.Byte p) (String c "")
| Matches_cat (r1 r2 : Re.regex) (a b : string) :
    Matches r1 a -> Matches r2 b -> Matches (Re.Cat r1 r2) (a ++ b)
| Matches_alt_l (r1 r2 : Re.regex) (a : string) :
    Matches r1 a -> Matches (Re.Alt r1 r2) a
| Matches_alt_r (r1 r2 : Re.regex) (a : string) :
    Matches r2 a -> Matches (Re.Alt r1 r2) a
| Matches_star_nil (r : Re.regex) : Matches (Re.Star r) ""
| Matches_star_cons (r : Re.regex) (a b : string) :
    Matches r a -> Matches (Re.Star r) b -> Matches (Re.Star r) (a ++ b).

(** The pieces with a separator put back between each two of them. *)
Fixpoint weave (pieces seps : list string) : string :=
  match pieces with
  | [] => ""
  | piece :: pieces' =>
    match seps with
    | [] => piece ++ weave pieces' []
    | sep :: seps' => piece ++ sep ++ weave pieces' seps'
    end
  end.

(** A sentence terminator or a white space of [\s]. *)
Definition terminatorOrSpace (c : ascii) : bool := Re.oneOf ".!?" c || Re.isSpace c.

(** Some [<] of the text has a [>] after it. *)
Fixpoint hasGt (s : string) : bool :=
  match s with
  | EmptyString => false
  | String c s' => Ascii.eqb c ">" || hasGt s'
  end.

Fixpoint hasTag (s : string) : bool :=
  match s with
  | EmptyString => false
  | String c s' => (Ascii.eqb c "<" && hasGt s') || hasTag s'
  end.

(** What follows the first [>] of the text. *)
Fixpoint afterGt (s : string) : option string :=
  match s with
  | EmptyString => None
  | String c s' => if Ascii.eqb c ">" then Some s' else afterGt s'
  end.

Definition notLt (c : ascii) : bool := negb (Ascii.eqb c "<").

(** The angle brackets of a text, in their order. *)
Fixpoint angles (s : string) : string :=
  match s with
  | EmptyString => EmptyString
  | String c s' =>
    if Ascii.eqb c "<" || Ascii.eqb c ">" then String c (angles s') else angles s'
  end.

(** The text in lower case, byte by byte. *)
Definition lower (s : string) : string := mapBytes lowerByte s.

End More.

(** * Properties *)

(** ** The context buffer *)

Section ContextBuffer.

Lemma appendBounded_length (ctx : list Message) (m : Message) :
  (List.length ctx <= 19)%nat -> (List.length (appendBounded ctx m) <= 19)%nat.
Proof.
  intro Hlen. unfold appendBounded.
  assert (Happ : List.length (ctx ++ [m]) = S (List.length ctx))
    by (rewrite length_app; simpl; lia).
  destruct (19 <? List.length (ctx ++ [m]))%nat eqn:Hover.
  - apply Nat.ltb_lt in Hover.
    destruct (ctx ++ [m]) as [|systemMsg rest] eqn:Hctx1; [discriminate|].
    set (kept := skipn (List.length (systemMsg :: rest) - 18) (systemMsg :: rest)).
    change (List.length (systemMsg :: kept)) with (S (List.length kept)). subst kept.
    rewrite length_skipn. lia.
  - apply Nat.ltb_ge in Hover. lia.
Qed.

Lemma appendBounded_head (ctx : list Message) (m x : Message) :
  hd_error ctx = Some x -> hd_error (appendBounded ctx m) = Some x.
Proof.
  intro Hhd. destruct ctx as [|y ctx']; [discriminate|].
  simpl in Hhd. injection Hhd as ->.
  unfold appendBounded. simpl app.
  destruct (19 <? _)%nat; reflexivity.
Qed.

Lemma context_addToContext (bot : IRCBot) (m : Message) :
  context (addToContext bot m) = appendBounded (context bot) m.
Proof. reflexivity. Qed.

Lemma addAll_snoc (bot : IRCBot) (ms : list Message) (m : Message) :
  addAll bot (ms ++ [m]) = addToContext (addAll bot ms) m.
Proof. unfold addAll. rewrite fold_left_app. reflexivity. Qed.

Lemma addAll_length (bot : IRCBot) (ms : list Message) :
  (List.length (context bot) <= 19)%nat ->
  (List.length (context (addAll bot ms)) <= 19)%nat.
Proof.
  intro Hbot. induction ms as [|m ms IH] using rev_ind.
  - exact Hbot.
  - rewrite addAll_snoc, context_addToContext. now apply appendBounded_length.
Qed.

Lemma addAll_head (bot : IRCBot) (ms : list Message) (x : Message) :
  hd_error (context bot) = Some x -> hd_error (context (addAll bot ms)) = Some x.
Proof.
  intro Hbot. induction ms as [|m ms IH] using rev_ind.
  - exact Hbot.
  - rewrite addAll_snoc, context_addToContext. now apply appendBounded_head.
Qed.

Lemma is_empty_false (s : string) : s <> EmptyString -> is_empty s = false.
Proof. destruct s; [congruence | reflexivity]. Qed.

Lemma NewIRCBot_length (cfg : Config) (http : string -> HttpReply) :
  (List.length (context (NewIRCBot cfg http)) <= 1)%nat.
Proof. unfold NewIRCBot. destruct (is_empty (Persona cfg)); simpl; lia. Qed.

(** C1. Whatever entries are appended to the window of a new bot, and
    however many, the window holds at most 19 entries afterwards, and when
    the persona text is not empty the entry at index 0 is the persona entry
    with the text it was given. *)
Theorem window_bounded_persona_first :
  forall (cfg : Config) (http : string -> HttpReply) (ms : list Message),
    let bot := addAll (NewIRCBot cfg http) ms in
    (List.length (context bot) <= 19)%nat /\
    (Persona cfg <> EmptyString ->
     nth_error (context bot) 0 = Some {| Role := "system"; Content := Persona cfg |}).
Proof.
  intros cfg http ms bot. split.
  - apply addAll_length. pose proof (NewIRCBot_length cfg http). lia.
  - intro Hpersona.
    assert (Hhd : hd_error (context bot) = Some {| Role := "system"; Content := Persona cfg |}).
    { apply addAll_head. unfold NewIRCBot.
      rewrite (is_empty_false _ Hpersona). reflexivity. }
    destruct (context bot); exact Hhd.
Qed.

Lemma window_bounded_persona_first_witness :
  let bot := addAll (NewIRCBot (Sample.steve "P") Sample.answering) (Sample.turns 1 25) in
  (List.length (context bot) <= 19)%nat /\
  nth_error (context bot) 0 = Some {| Role := "system"; Content := "P" |}.
Proof.
  pose proof (window_bounded_persona_first (Sample.steve "P") Sample.answering (Sample.turns 1 25))
    as [Hlen Hhead].
  split; [exact Hlen | apply Hhead; discriminate].
Defined.

(** When the window is full and opens with a pinned entry, an append drops
    the entry right after the pinned one and nothing else. *)
Lemma appendBounded_full (p : Message) (rest : list Message) (m : Message) :
  List.length rest = 18%nat ->
  appendBounded (p :: rest) m = p :: tl rest ++ [m].
Proof.
  intro Hlen.
  do 18 (destruct rest as [|? rest]; [discriminate|]).
  destruct rest; [reflexivity | discriminate].
Qed.

(** Below capacity an append only adds at the end. *)
Lemma appendBounded_room (ctx : list Message) (m : Message) :
  (List.length ctx < 19)%nat -> appendBounded ctx m = ctx ++ [m].
Proof.
  intro Hlen. unfold appendBounded.
  replace (19 <? List.length (ctx ++ [m]))%nat with false; [reflexivity|].
  symmetry. apply Nat.ltb_ge. rewrite length_app. simpl. lia.
Qed.

(** With a persona, 25 turns leave the persona and the last 18 turns. *)
Lemma persona_then_25_turns :
  forall http : string -> HttpReply,
    context (addAll (NewIRCBot (Sample.steve "P") http) (Sample.turns 1 25))
    = {| Role := "system"; Content := "P" |} :: Sample.turns 8 18.
Proof. intro http. reflexivity. Qed.


End ContextBuffer.

(** ** Byte strings *)

Section Strings.

#[local] Open Scope string_scope.

Lemma length_append (a b : string) :
  String.length (a ++ b) = (String.length a + String.length b)%nat.
Proof. induction a as [|c a IH]; simpl; [reflexivity | now rewrite IH]. Qed.

Lemma append_nil_r (a : string) : a ++ "" = a.
Proof. induction a as [|c a IH]; simpl; [reflexivity | now rewrite IH]. Qed.

Lemma append_assoc (a b c : string) : (a ++ b) ++ c = a ++ (b ++ c).
Proof. induction a as [|x a IH]; simpl; [reflexivity | now rewrite IH]. Qed.

Lemma len_append (a b : string) : len (a ++ b) = (len a + len b)%Z.
Proof. unfold len. rewrite length_append. lia. Qed.

Lemma len_nonneg (a : string) : (0 <= len a)%Z.
Proof. unfold len. lia. Qed.

End Strings.

(** ** Splitting a reply into lines *)

Section Lines.

#[local] Open Scope string_scope.

Lemma lines_app (es fs : list Effect) : lines (es ++ fs) = (lines es ++ lines fs)%list.
Proof.
  induction es as [|e es IH]; simpl; [reflexivity|].
  destruct e; simpl; now rewrite IH.
Qed.

Lemma lines_flush (target cur : string) (out : list Effect) :
  lines (flush target cur out) = (lines out ++ (if is_empty cur then [] else [cur]))%list.
Proof.
  unfold flush. destruct (is_empty cur).
  - now rewrite app_nil_r.
  - now rewrite lines_app.
Qed.

Lemma len_extend (cur piece : string) :
  (len (extend cur piece) <= len cur + len piece + 1)%Z.
Proof.
  unfold extend. destruct (is_empty cur); rewrite !len_append.
  - lia.
  - change (len " ") with 1%Z. lia.
Qed.

(** *** An invariant of the two loops

    [Cur] holds of the line being built and [Out] of the lines sent. *)

Section LoopInvariant.

Variable maxLength : Z.
Variable target : string.
Variables Cur Out : string -> Prop.

Hypothesis Cur_short : forall c, (len c <= maxLength)%Z -> Cur c.
Hypothesis Out_Cur : forall c, Cur c -> c <> "" -> Out c.

Lemma flush_Out (cur : string) (out : list Effect) :
  (cur <> "" -> Cur cur) -> Forall Out (lines out) ->
  Forall Out (lines (flush target cur out)).
Proof.
  intros Hcur Hout. rewrite lines_flush. apply Forall_app. split; [exact Hout|].
  destruct cur as [|c cur']; simpl; constructor; [|constructor].
  apply Out_Cur; [apply Hcur|]; discriminate.
Qed.

Lemma wordStep_Inv (st : string * list Effect) (word : string) :
  Spec.Inv Cur Out st -> Cur word -> Spec.Inv Cur Out (wordStep maxLength target st word).
Proof.
  destruct st as [cur out]. intros [Hcur Hout] Hword. unfold wordStep, Spec.Inv.
  destruct (len cur + len word + 1 <=? maxLength)%Z eqn:Hfit.
  - apply Z.leb_le in Hfit. split; simpl; [|exact Hout].
    intros _. apply Cur_short. pose proof (len_extend cur word). lia.
  - split; simpl; [intros _; exact Hword | now apply flush_Out].
Qed.

Lemma words_Inv (words : list string) (st : string * list Effect) :
  Spec.Inv Cur Out st -> Forall Cur words ->
  Spec.Inv Cur Out (fold_left (wordStep maxLength target) words st).
Proof.
  revert st. induction words as [|w words IH]; intros st Hst Hwords; simpl.
  - exact Hst.
  - inversion Hwords; subst. apply IH; [now apply wordStep_Inv | assumption].
Qed.

Lemma sentenceStep_Inv (st : string * list Effect) (sentence : string) :
  Spec.Inv Cur Out st -> Forall Cur (Fields sentence) ->
  Spec.Inv Cur Out (sentenceStep maxLength target st sentence).
Proof.
  destruct st as [cur out]. intros [Hcur Hout] Hwords. unfold sentenceStep.
  destruct (len cur + len sentence + 1 <=? maxLength)%Z eqn:Hfit.
  - apply Z.leb_le in Hfit. split; simpl; [|exact Hout].
    intros _. apply Cur_short. pose proof (len_extend cur sentence). lia.
  - destruct (len sentence >? maxLength)%Z eqn:Hlong.
    + apply words_Inv; [|exact Hwords]. split; simpl.
      * intro Hne. now contradiction Hne.
      * now apply flush_Out.
    + split; simpl; [|now apply flush_Out].
      intros _. apply Cur_short.
      rewrite Z.gtb_ltb in Hlong. apply Z.ltb_ge in Hlong. exact Hlong.
Qed.

Lemma sentences_Inv (sentences : list string) (st : string * list Effect) :
  Spec.Inv Cur Out st -> (forall s, In s sentences -> Forall Cur (Fields s)) ->
  Spec.Inv Cur Out (fold_left (sentenceStep maxLength target) sentences st).
Proof.
  revert st. induction sentences as [|s sentences IH]; intros st Hst Hall; simpl.
  - exact Hst.
  - apply IH.
    + apply sentenceStep_Inv; [exact Hst | apply Hall; now left].
    + intros s' Hin. apply Hall. now right.
Qed.

(** What the invariant gives for a reply longer than [maxLength]. *)
Lemma outgoing_long_Out (response : string) :
  (len response <=? maxLength)%Z = false ->
  (forall s, In s (Re.Split Re.sentenceEnd response) -> Forall Cur (Fields s)) ->
  Forall Out (lines (outgoing maxLength target response)).
Proof.
  intros Hlong Hwords. unfold outgoing. rewrite Hlong.
  pose proof (sentences_Inv (Re.Split Re.sentenceEnd response) ("", [])) as Hinv.
  unfold Spec.Inv in Hinv.
  destruct (fold_left (sentenceStep maxLength target) _ ("", [])) as [cur out].
  destruct Hinv as [Hcur Hout].
  - split; simpl; [intro Hne; now contradiction Hne | constructor].
  - exact Hwords.
  - simpl in Hcur, Hout. destruct (is_empty cur) eqn:Hcur0; [exact Hout|].
    rewrite lines_app. apply Forall_app. split; [exact Hout|].
    simpl. constructor; [|constructor].
    assert (Hne : cur <> "") by (intros ->; discriminate).
    now apply Out_Cur; [apply Hcur|].
Qed.

End LoopInvariant.

(** *** The lines do not depend on whom they are sent to *)

Lemma lines_retarget (target : string) (es : list Effect) :
  lines (Spec.retarget target es) = lines es.
Proof.
  induction es as [|e es IH]; simpl; [reflexivity|].
  destruct e; simpl; now rewrite IH.
Qed.

Lemma flush_retarget (t t' cur : string) (out : list Effect) :
  flush t cur (Spec.retarget t out) = Spec.retarget t (flush t' cur out).
Proof.
  unfold flush. destruct (is_empty cur); [reflexivity|].
  unfold Spec.retarget. now rewrite map_app.
Qed.

Lemma wordStep_retarget (m : Z) (t t' : string) (st : string * list Effect) (w : string) :
  wordStep m t (Spec.retargetState t st) w = Spec.retargetState t (wordStep m t' st w).
Proof.
  destruct st as [cur out]. unfold Spec.retargetState, wordStep. simpl.
  destruct (len cur + len w + 1 <=? m)%Z; simpl; [reflexivity|].
  now rewrite (flush_retarget t t').
Qed.

Lemma words_retarget (m : Z) (t t' : string) (ws : list string) (st : string * list Effect) :
  fold_left (wordStep m t) ws (Spec.retargetState t st)
  = Spec.retargetState t (fold_left (wordStep m t') ws st).
Proof.
  revert st. induction ws as [|w ws IH]; intro st; cbn [fold_left]; [reflexivity|].
  now rewrite (wordStep_retarget m t t'), IH.
Qed.

Lemma sentenceStep_retarget (m : Z) (t t' : string) (st : string * list Effect) (s : string) :
  sentenceStep m t (Spec.retargetState t st) s = Spec.retargetState t (sentenceStep m t' st s).
Proof.
  destruct st as [cur out]. unfold Spec.retargetState at 1, sentenceStep. simpl.
  destruct (len cur + len s + 1 <=? m)%Z; [reflexivity|].
  rewrite (flush_retarget t t').
  destruct (len s >? m)%Z; [|reflexivity].
  apply (words_retarget m t t' (Fields s) ("", flush t' cur out)).
Qed.

Lemma sentences_retarget (m : Z) (t t' : string) (ss : list string) (st : string * list Effect) :
  fold_left (sentenceStep m t) ss (Spec.retargetState t st)
  = Spec.retargetState t (fold_left (sentenceStep m t') ss st).
Proof.
  revert st. induction ss as [|x ss IH]; intro st; cbn [fold_left]; [reflexivity|].
  now rewrite (sentenceStep_retarget m t t'), IH.
Qed.

Lemma outgoing_retarget (m : Z) (t t' response : string) :
  outgoing m t response = Spec.retarget t (outgoing m t' response).
Proof.
  unfold outgoing. destruct (len response <=? m)%Z; [reflexivity|].
  pose proof (sentences_retarget m t t' (Re.Split Re.sentenceEnd response) ("", [])) as Hfold.
  change (Spec.retargetState t ("", [])) with ("", @nil Effect) in Hfold.
  rewrite Hfold.
  destruct (fold_left (sentenceStep m t') _ ("", [])) as [cur out]. simpl.
  destruct (is_empty cur); [reflexivity|].
  unfold Spec.retarget. now rewrite map_app.
Qed.

(** The lines that [sendResponse] sends to any target are the chunks of
    [segment] at [maxLength]. *)
Lemma lines_outgoing (m : Z) (target response : string) :
  lines (outgoing m target response) = segment response m.
Proof.
  unfold segment. rewrite (outgoing_retarget m target ""). apply lines_retarget.
Qed.

End Lines.

(** ** Words *)

Section Words.

#[local] Open Scope string_scope.

Lemma drop_all (n : nat) (s : string) : (String.length s <= n)%nat -> drop n s = "".
Proof.
  revert n. induction s as [|c s IH]; intros [|n] Hn; simpl in *; try reflexivity; try lia.
  apply IH. lia.
Qed.

Lemma drop_append (n : nat) (a b : string) :
  (n <= String.length a)%nat -> drop n (a ++ b) = drop n a ++ b.
Proof.
  revert n. induction a as [|c a IH]; intros [|n] Hn; simpl in *; try reflexivity; try lia.
  apply IH. lia.
Qed.

Lemma drop_length_append (a b : string) : drop (String.length a) (a ++ b) = b.
Proof. induction a as [|c a IH]; simpl; [now destruct b | exact IH]. Qed.

Lemma snoc_append (a : string) (c : ascii) (b : string) : snoc a c ++ b = a ++ String c b.
Proof. unfold snoc. now rewrite append_assoc. Qed.

Lemma length_snoc (a : string) (c : ascii) : String.length (snoc a c) = S (String.length a).
Proof. unfold snoc. rewrite length_append. simpl. lia. Qed.

(** A white-space rune at the head of a prefix is one at the head of the
    whole. *)
Lemma spaceWidth_prefix (a b : string) :
  spaceWidth (a ++ b) = 0%nat -> spaceWidth a = 0%nat.
Proof.
  destruct a as [|c0 [|c1 [|c2 a]]]; unfold spaceWidth; simpl; try reflexivity.
  - destruct (asciiSpace c0); [destruct b; discriminate | reflexivity].
  - destruct (asciiSpace c0); [discriminate|].
    destruct ((code c0 =? 194)%N && ((code c1 =? 133)%N || (code c1 =? 160)%N));
      [discriminate | reflexivity].
  - intro Hx; exact Hx.
Qed.

#[local] Arguments spaceWidth : simpl never.

Lemma flushField_nonempty (cur w : string) : In w (flushField cur) -> w = cur /\ w <> "".
Proof.
  unfold flushField. destruct cur as [|c cur]; simpl; [tauto|].
  intros [<-|[]]. split; [reflexivity | discriminate].
Qed.

Lemma fieldsFrom_nonempty (s : string) :
  forall (skip : nat) (cur w : string), In w (fieldsFrom skip cur s) -> w <> "".
Proof.
  induction s as [|c s IH]; intros skip cur w Hin; simpl in Hin.
  - now apply flushField_nonempty in Hin.
  - destruct skip as [|n]; [|now apply IH in Hin].
    destruct (spaceWidth (String c s)) as [|n]; [now apply IH in Hin|].
    apply in_app_or in Hin as [Hin|Hin];
      [now apply flushField_nonempty in Hin | now apply IH in Hin].
Qed.

Lemma fieldsFrom_blank_free (s : string) :
  forall (skip : nat) (cur w : string),
    skip = 0%nat \/ cur = "" ->
    (forall n, (n < String.length cur)%nat -> spaceWidth (drop n (cur ++ s)) = 0%nat) ->
    In w (fieldsFrom skip cur s) -> Spec.BlankFree w.
Proof.
  induction s as [|c s IH]; intros skip cur w Hmode Hcur Hin; simpl in Hin.
  - apply flushField_nonempty in Hin as [-> _]. intro n.
    destruct (Nat.lt_ge_cases n (String.length cur)) as [Hn|Hn].
    + specialize (Hcur n Hn). now rewrite append_nil_r in Hcur.
    + now rewrite drop_all.
  - destruct skip as [|k].
    + destruct (spaceWidth (String c s)) as [|k] eqn:Hsp.
      * apply (IH 0%nat (snoc cur c) w); [now left | | exact Hin].
        intros n Hn. rewrite snoc_append. rewrite length_snoc in Hn.
        destruct (Nat.eq_dec n (String.length cur)) as [->|Hne].
        -- now rewrite drop_length_append.
        -- apply Hcur. lia.
      * apply in_app_or in Hin as [Hin|Hin].
        -- apply flushField_nonempty in Hin as [-> _]. intro n.
           destruct (Nat.lt_ge_cases n (String.length cur)) as [Hn|Hn].
           ++ specialize (Hcur n Hn). rewrite drop_append in Hcur by lia.
              now apply spaceWidth_prefix in Hcur.
           ++ now rewrite drop_all.
        -- apply (IH k "" w); [now right | | exact Hin]. simpl. intros n Hn. lia.
    + destruct Hmode as [Hk| ->]; [discriminate|].
      apply (IH k "" w); [now right | | exact Hin]. simpl. intros n Hn. lia.
Qed.

(** The words of [strings.Fields] are not empty and hold no white space. *)
Lemma Fields_words (s w : string) : In w (Fields s) -> w <> "" /\ Spec.BlankFree w.
Proof.
  intro Hin. split.
  - now apply (fieldsFrom_nonempty s 0%nat "").
  - apply (fieldsFrom_blank_free s 0%nat "" w); [now left | | exact Hin].
    simpl. intros n Hn. lia.
Qed.

End Words.

(** ** The chunks of a reply *)

Section Chunks.

#[local] Open Scope string_scope.

(** C3. Every chunk of [segment text maxLen] is at most [maxLen] bytes long,
    unless it is a single word of the text that is itself longer than
    [maxLen]: one of the white-space-delimited words of a sentence of the
    text, not empty and without white space inside. *)
Theorem chunk_fits_or_is_single_word :
  forall (text : string) (maxLen : Z) (chunk : string),
    In chunk (segment text maxLen) ->
    (len chunk <= maxLen)%Z \/
    ((maxLen < len chunk)%Z /\ Spec.WordOf text chunk /\ chunk <> "" /\ Spec.BlankFree chunk).
Proof.
  intros text maxLen chunk Hin.
  set (Good := fun c : string =>
    (len c <= maxLen)%Z \/
    ((maxLen < len c)%Z /\ Spec.WordOf text c /\ c <> "" /\ Spec.BlankFree c)).
  assert (Hall : Forall Good (segment text maxLen)).
  { unfold segment. destruct (len text <=? maxLen)%Z eqn:Hshort.
    - unfold outgoing. rewrite Hshort. simpl. constructor; [|constructor].
      left. now apply Z.leb_le.
    - apply (outgoing_long_Out maxLen "" Good Good); try assumption.
      + intros c Hc. now left.
      + intros c Hc _. exact Hc.
      + intros s Hs. apply Forall_forall. intros w Hw.
        destruct (Z_le_gt_dec (len w) maxLen) as [Hle|Hgt]; [now left|].
        right. destruct (Fields_words s w Hw) as [Hne Hblank].
        repeat split; [lia | now exists s | exact Hne | exact Hblank]. }
  rewrite Forall_forall in Hall. exact (Hall chunk Hin).
Qed.

Lemma chunk_fits_or_is_single_word_witness :
  (len "dddddddddddddd" <= 10)%Z \/
  ((10 < len "dddddddddddddd")%Z /\ Spec.WordOf Sample.longWord "dddddddddddddd"
   /\ "dddddddddddddd" <> "" /\ Spec.BlankFree "dddddddddddddd").
Proof.
  apply (chunk_fits_or_is_single_word Sample.longWord 10 "dddddddddddddd").
  vm_compute. tauto.
Defined.

(** C4. On the reply [Sample.greetings], 31 sentences that end in a full
    stop and a space followed by a last word, [sendResponse] sends one line
    from which the 31 full stops are gone: the line that was sent is not the
    reply up to white space. *)
Theorem sentence_terminators_are_lost :
  segment Sample.greetings 400
    = [String.concat " " (List.repeat "Hello there" 31 ++ ["Bye."])%list] /\
  Spec.normalize (String.concat " " (segment Sample.greetings 400))
    <> Spec.normalize Sample.greetings /\
  Spec.count "." Sample.greetings = 32%nat /\
  Spec.count "." (String.concat " " (segment Sample.greetings 400)) = 1%nat.
Proof.
  assert (Hseg : segment Sample.greetings 400
    = [String.concat " " (List.repeat "Hello there" 31 ++ ["Bye."])%list])
    by (vm_compute; reflexivity).
  split; [exact Hseg|]. rewrite Hseg. split; [|split].
  - intro Heq. apply (f_equal String.length) in Heq. vm_compute in Heq. discriminate.
  - vm_compute. reflexivity.
  - vm_compute. reflexivity.
Qed.




End Chunks.

(** ** The prompt *)

Section Prompt.

#[local] Open Scope string_scope.

Lemma writeEntry_render (b : string) (entry : Message) :
  Spec.ValidRole (Role entry) -> writeEntry b entry = b ++ Spec.render entry.
Proof.
  unfold writeEntry, Spec.render, Spec.roleLabel, WriteString.
  intros [Hrole|[Hrole|Hrole]]; rewrite Hrole; simpl; now rewrite !append_assoc.
Qed.

Lemma fold_writeEntry (window : list Message) (b : string) :
  Spec.ValidWindow window ->
  fold_left writeEntry window b = b ++ String.concat "" (map Spec.render window).
Proof.
  revert b. induction window as [|entry window IH]; intros b Hvalid; simpl.
  - now rewrite append_nil_r.
  - inversion Hvalid as [|? ? Hentry Hrest]; subst.
    rewrite IH by assumption. rewrite writeEntry_render by assumption.
    rewrite append_assoc. f_equal.
    destruct window as [|next window]; simpl; [now rewrite append_nil_r | reflexivity].
Qed.

(** C6. For a window whose entries carry the roles of the program,
    [buildPrompt] returns the entries in order, each as its label
    ([System], [User] or [Assistant]), a colon and a space, the content and a
    line feed, followed by [Assistant: ] without a line feed; and it leaves
    the bot, the window included, as it found it. *)
Theorem buildPrompt_serializes :
  forall bot : IRCBot,
    Spec.ValidWindow (context bot) ->
    buildPrompt bot = (Spec.serialize (context bot), bot).
Proof.
  intros bot Hvalid. unfold buildPrompt, bind, gets, ret, WriteString, Spec.serialize.
  now rewrite fold_writeEntry.
Qed.

Lemma buildPrompt_serializes_witness :
  buildPrompt (addAll (NewIRCBot (Sample.steve "P") Sample.answering) (Sample.turns 1 2))
  = ("System: P" ++ newline ++ "User: 1" ++ newline ++ "Assistant: 2" ++ newline ++ "Assistant: ",
     addAll (NewIRCBot (Sample.steve "P") Sample.answering) (Sample.turns 1 2)).
Proof.
  apply (buildPrompt_serializes
           (addAll (NewIRCBot (Sample.steve "P") Sample.answering) (Sample.turns 1 2))).
  simpl. repeat constructor; unfold Spec.ValidRole; simpl; tauto.
Defined.

(** The windows that the program builds carry its three roles only. *)
Lemma appendBounded_valid (ctx : list Message) (m : Message) :
  Spec.ValidWindow ctx -> Spec.ValidRole (Role m) ->
  Spec.ValidWindow (appendBounded ctx m).
Proof.
  unfold Spec.ValidWindow. intros Hctx Hm. unfold appendBounded.
  assert (Hall : Forall (fun entry => Spec.ValidRole (Role entry)) (ctx ++ [m])%list)
    by (apply Forall_app; split; [assumption | now constructor]).
  destruct (19 <? _)%nat; [|exact Hall].
  destruct (ctx ++ [m])%list as [|systemMsg rest] eqn:Hctx1; [exact Hall|].
  constructor.
  - now inversion Hall.
  - rewrite Forall_forall in *. intros x Hx. apply Hall.
    rewrite <- (firstn_skipn (List.length (systemMsg :: rest) - 18) (systemMsg :: rest)).
    apply in_or_app. now right.
Qed.

Lemma NewIRCBot_valid (cfg : Config) (http : string -> HttpReply) :
  Spec.ValidWindow (context (NewIRCBot cfg http)).
Proof.
  unfold NewIRCBot. destruct (is_empty (Persona cfg)); simpl; repeat constructor.
Qed.

End Prompt.

(** ** Engaging with a message and the round trip *)

Section Engage.

#[local] Open Scope string_scope.

Context `{Unicode}.

Lemma HasPrefix_iff (s p : string) :
  HasPrefix s p = true <-> exists rest, s = p ++ rest.
Proof.
  unfold HasPrefix. revert s. induction p as [|c p IH]; intro s.
  - split; [intros _; now exists s | intros _; now destruct s].
  - destruct s as [|d s]; simpl.
    + split; [discriminate | intros [rest Hrest]; discriminate].
    + destruct (ascii_dec c d) as [->|Hneq].
      * rewrite IH. split; intros [rest Hrest]; exists rest;
          [now rewrite Hrest | now injection Hrest].
      * split; [discriminate | intros [rest Hrest]; injection Hrest; congruence].
Qed.

Lemma Contains_iff (s sub : string) : Contains s sub = true <-> Spec.Substring sub s.
Proof.
  unfold Spec.Substring. induction s as [|c s IH]; cbn [Contains].
  - rewrite orb_false_r, HasPrefix_iff. split.
    + intros [rest Hrest]. now exists "", rest.
    + intros [before [after Heq]]. destruct before; [now exists after | discriminate].
  - rewrite orb_true_iff, HasPrefix_iff, IH. split.
    + intros [[rest Hrest]|[before [after Heq]]].
      * now exists "", rest.
      * exists (String c before), after. simpl. now rewrite Heq.
    + intros [before [after Heq]]. destruct before as [|d before]; simpl in Heq.
      * left. now exists after.
      * right. exists before, after. now injection Heq.
Qed.

Lemma shouldRespondToMessage_iff (cfg : Config) (message : string) :
  shouldRespondToMessage cfg message = true <->
  Spec.Substring (ToLower (Nick cfg)) (ToLower message) \/
  (exists pattern, TriggerPattern cfg = Some pattern /\ MatchString pattern message = true).
Proof.
  unfold shouldRespondToMessage. rewrite <- Contains_iff.
  destruct (Contains (ToLower message) (ToLower (Nick cfg))).
  - split; [now left | reflexivity].
  - destruct (TriggerPattern cfg) as [pattern|].
    + split.
      * intro Hm. right. now exists pattern.
      * intros [Hc|[p [Hp Hm]]]; [discriminate | now injection Hp as ->].
    + split; [discriminate | intros [Hc|[p [Hp _]]]; discriminate].
Qed.

(** C7. The bot engages with a message exactly when the message was sent to
    the bot alone (its target is the bot's nick), or the lower-cased text
    holds the lower-cased nick, or a trigger pattern is configured and
    matches the text.  When it does not engage, [handleMessage] returns with
    the bot as it was: the window unchanged and no call made.  With nick
    [Steve] and no trigger pattern, a message to the channel is engaged with
    when it reads "anyone seen steve?" and not when it reads "just
    chatting". *)
Theorem engage_iff_directed_named_or_triggered :
  forall (e : Event) (bot : IRCBot),
    let cfg := config bot in
    (shouldRespond cfg e = true <->
       EvTarget e = Nick cfg
       \/ Spec.Substring (ToLower (Nick cfg)) (ToLower (EvMessage e))
       \/ (exists pattern,
             TriggerPattern cfg = Some pattern /\ MatchString pattern (EvMessage e) = true))
    /\ (shouldRespond cfg e = false -> handleMessage e bot = (tt, bot))
    /\ shouldRespond (Sample.steve "P") (mkEvent "alice" "#lobby" ["anyone seen steve?"]) = true
    /\ shouldRespond (Sample.steve "P") (mkEvent "alice" "#lobby" ["just chatting"]) = false.
Proof.
  intros e bot cfg. split; [|split; [|split; reflexivity]].
  - unfold shouldRespond. rewrite orb_true_iff, shouldRespondToMessage_iff, String.eqb_eq.
    tauto.
  - unfold shouldRespond, handleMessage, bind, gets, ret. fold cfg.
    intro Hno. destruct (EvNick e =? Nick cfg); [reflexivity|].
    now rewrite Hno.
Qed.

(** C10. A message whose sender is the bot's own nick is dropped at once,
    whatever its target and its text: the bot is left as it was, with the
    same window and no call made. *)
Theorem own_messages_are_ignored :
  forall (e : Event) (bot : IRCBot),
    EvNick e = Nick (config bot) -> handleMessage e bot = (tt, bot).
Proof.
  intros e bot Hself. unfold handleMessage, bind, gets, ret.
  rewrite Hself, String.eqb_refl. reflexivity.
Qed.

Lemma appendBounded_last (ctx : list Message) (m : Message) :
  exists earlier, appendBounded ctx m = (earlier ++ [m])%list.
Proof.
  unfold appendBounded. destruct (19 <? _)%nat eqn:Hover; [|now exists ctx].
  apply Nat.ltb_lt in Hover.
  assert (Hlen : List.length (ctx ++ [m]) = S (List.length ctx))
    by (rewrite length_app; simpl; lia).
  destruct ctx as [|systemMsg rest]; [simpl in Hover; lia|].
  change ((systemMsg :: rest) ++ [m])%list with (systemMsg :: (rest ++ [m]))%list at 1.
  cbv iota. rewrite Hlen.
  exists (systemMsg :: skipn (S (List.length (systemMsg :: rest)) - 18) (systemMsg :: rest)).
  rewrite skipn_app.
  replace (S (List.length (systemMsg :: rest)) - 18 - List.length (systemMsg :: rest))%nat
    with 0%nat by lia.
  reflexivity.
Qed.

(** [getAIResponse] with its steps laid out on the bot. *)
Lemma getAIResponse_steps (message fromNick : string) (bot : IRCBot) :
  getAIResponse message fromNick bot =
  let bot1 := addToContext bot (Spec.userEntry fromNick message) in
  let bot2 := emit bot1 [Get (Spec.promptURL bot1)] in
  match client bot (Spec.promptURL bot1) with
  | TransportError cause => (Err ("failed to make API request: " ++ cause), bot2)
  | Response StatusCode body readErr =>
    if negb (StatusCode =? 200)%Z then
      (Err ("API request failed with status " ++ decimal StatusCode ++ ": " ++ body), bot2)
    else
      match readErr with
      | Some cause => (Err ("failed to read response body: " ++ cause), bot2)
      | None =>
        (Ok (cleanAIResponse (TrimSpace body)),
         addToContext bot2 {| Role := "assistant"; Content := cleanAIResponse (TrimSpace body) |})
      end
  end.
Proof.
  destruct bot as [cfg http ctx tr].
  cbv beta iota zeta delta [getAIResponse bind addToContextM modify call gets ret buildPrompt
    Spec.promptURL Spec.userEntry fst snd client emit addToContext set_context context
    config trace].
  destruct (http _) as [cause|code body readErr]; [reflexivity|].
  destruct (negb (code =? 200)%Z); [reflexivity|].
  destruct readErr; reflexivity.
Qed.



(** An answered round trip: the reply is cleaned, appended as the assistant
    entry and sent in the lines of [segment] at 400 bytes, to the sender when
    the message came to the bot alone and to the target otherwise. *)
Lemma answered_round_trip (e : Event) (bot : IRCBot) (body : string) :
  let cfg := config bot in
  let entry := Spec.userEntry (EvNick e) (cleanMessage cfg (EvMessage e)) in
  let bot1 := addToContext bot entry in
  let reply := cleanAIResponse (TrimSpace body) in
  let bot' := snd (handleMessage e bot) in
  EvNick e <> Nick cfg ->
  shouldRespond cfg e = true ->
  client bot (Spec.promptURL bot1) = Response 200 body None ->
  context bot' = appendBounded (context bot1) {| Role := "assistant"; Content := reply |} /\
  lines (trace bot') = (lines (trace bot) ++ segment reply 400)%list.
Proof.
  intros cfg entry bot1 reply bot' Hother Hengage Hreply. subst bot'.
  unfold handleMessage, bind, gets, ret. fold cfg.
  apply String.eqb_neq in Hother. rewrite Hother.
  unfold shouldRespond in Hengage. rewrite Hengage. change (negb true) with false.
  cbv beta iota. rewrite getAIResponse_steps. fold entry bot1. cbv zeta.
  rewrite Hreply. change (negb (200 =? 200)%Z) with false. cbv beta iota.
  unfold sendResponse, modify. cbn [snd context trace emit addToContext set_context].
  split; [reflexivity|].
  rewrite !lines_app, lines_outgoing. simpl. now rewrite app_nil_r.
Qed.

(** The cleaning of a reply on the example of the specification. *)
Lemma cleanAIResponse_example :
  cleanAIResponse "Assistant: <b>hi</b>   there" = "hi there".
Proof. reflexivity. Qed.

(** [handleMessage] keeps the roles of the window among the three roles of
    the program: every prompt it requests a reply for is rendered in
    full. *)
Lemma handleMessage_valid (e : Event) (bot : IRCBot) :
  Spec.ValidWindow (context bot) -> Spec.ValidWindow (context (snd (handleMessage e bot))).
Proof.
  intro Hvalid. unfold handleMessage, bind, gets, ret.
  destruct (EvNick e =? Nick (config bot)); [exact Hvalid|].
  destruct (negb _); [exact Hvalid|].
  rewrite getAIResponse_steps. cbv zeta.
  assert (Huser : Spec.ValidWindow
            (context (addToContext bot
               (Spec.userEntry (EvNick e) (cleanMessage (config bot) (EvMessage e))))))
    by (apply appendBounded_valid; [exact Hvalid | right; now left]).
  destruct (client bot _) as [cause|code body readErr]; [exact Huser|].
  destruct (negb (code =? 200)%Z); [exact Huser|].
  destruct readErr; [exact Huser|].
  unfold sendResponse, modify. cbn [snd context emit addToContext set_context].
  apply appendBounded_valid; [exact Huser | right; now right].
Qed.

End Engage.

Lemma engage_iff_directed_named_or_triggered_witness :
  handleMessage (H := Sample.plainUnicode) (mkEvent "alice" "#lobby" ["just chatting"])
    (NewIRCBot (Sample.steve "P") Sample.answering)
  = (tt, NewIRCBot (Sample.steve "P") Sample.answering).
Proof.
  apply (engage_iff_directed_named_or_triggered (H := Sample.plainUnicode)
           (mkEvent "alice" "#lobby" ["just chatting"])
           (NewIRCBot (Sample.steve "P") Sample.answering)).
  reflexivity.
Defined.

Lemma own_messages_are_ignored_witness :
  handleMessage (H := Sample.plainUnicode) (mkEvent "Steve" "Steve" ["Steve: are you there?"])
    (NewIRCBot (Sample.steve "P") Sample.answering)
  = (tt, NewIRCBot (Sample.steve "P") Sample.answering).
Proof.
  apply (own_messages_are_ignored (H := Sample.plainUnicode)). reflexivity.
Defined.


(** ** Matching the salutation pattern *)

Section Matching.

#[local] Open Scope string_scope.

Import Spec.

(** A greedy repetition of a byte class at the end of a pattern takes the
    whole run. *)
Lemma starLoop_class (p : ascii -> bool) :
  forall (fuel : nat) (s : string),
    (String.length s <= fuel)%nat ->
    Re.starLoop (Re.run (Re.Byte p)) Some fuel s = Some (dropWhile p s).
Proof.
  induction fuel as [|fuel IH]; intros s Hlen.
  - destruct s; [reflexivity | simpl in Hlen; lia].
  - destruct s as [|c s]; [reflexivity|].
    cbn [Re.starLoop Re.run dropWhile]. destruct (p c); [|reflexivity].
    replace (String.length s <? String.length (String c s))%nat with true
      by (symmetry; apply Nat.ltb_lt; simpl; lia).
    rewrite IH by (simpl in Hlen; lia). reflexivity.
Qed.

Lemma run_lit (p s : string) (k : string -> option string) :
  Re.run (Re.lit p) s k = match stripPrefix p s with Some rest => k rest | None => None end.
Proof.
  revert s. induction p as [|c p IH]; intro s; [reflexivity|].
  cbn [Re.lit Re.run stripPrefix]. destruct s as [|d s]; [reflexivity|].
  destruct (Ascii.eqb c d); [apply IH | reflexivity].
Qed.

(** A byte that reads [k] does not open the Kelvin sign, nor one that reads
    [s] the long s. *)
Lemma lowerByte_kelvin_head (b : ascii) :
  GoStrings.lowerByte b = "k"%char -> forall s, stripPrefix kelvin (String b s) = None.
Proof.
  intros Hb s.
  assert (Hne : Ascii.eqb (ascii_of_N 226) b = false).
  { apply Ascii.eqb_neq. intros <-. discriminate Hb. }
  unfold kelvin, Re.bytes. cbn [map string_of_list_ascii stripPrefix]. now rewrite Hne.
Qed.

Lemma lowerByte_longS_head (b : ascii) :
  GoStrings.lowerByte b = "s"%char -> forall s, stripPrefix longS (String b s) = None.
Proof.
  intros Hb s.
  assert (Hne : Ascii.eqb (ascii_of_N 197) b = false).
  { apply Ascii.eqb_neq. intros <-. discriminate Hb. }
  unfold longS, Re.bytes. cbn [map string_of_list_ascii stripPrefix]. now rewrite Hne.
Qed.

(** One letter of the nick under [(?i)]: the pattern finds the spelling at
    the head of the text, and there is at most one. *)
Lemma run_foldByte (c : ascii) (s : string) (k : string -> option string) :
  Re.run (Re.foldByte c) s k
  = match foldPrefix c s with Some rest => k rest | None => None end.
Proof.
  unfold Re.foldByte, foldPrefix.
  destruct (Ascii.eqb (GoStrings.lowerByte c) "k") eqn:Hk;
    [|destruct (Ascii.eqb (GoStrings.lowerByte c) "s") eqn:Hs].
  - apply Ascii.eqb_eq in Hk. cbn [Re.run]. rewrite run_lit.
    destruct s as [|b s]; [reflexivity|].
    destruct (Ascii.eqb (GoStrings.lowerByte b) (GoStrings.lowerByte c)) eqn:Hb.
    + apply Ascii.eqb_eq in Hb. rewrite Hk in Hb.
      rewrite (lowerByte_kelvin_head b Hb). now destruct (k s).
    + reflexivity.
  - apply Ascii.eqb_eq in Hs. cbn [Re.run]. rewrite run_lit.
    destruct s as [|b s]; [reflexivity|].
    destruct (Ascii.eqb (GoStrings.lowerByte b) (GoStrings.lowerByte c)) eqn:Hb.
    + apply Ascii.eqb_eq in Hb. rewrite Hs in Hb.
      rewrite (lowerByte_longS_head b Hb). now destruct (k s).
    + reflexivity.
  - cbn [Re.run]. destruct s as [|b s]; [reflexivity|].
    now destruct (Ascii.eqb (GoStrings.lowerByte b) (GoStrings.lowerByte c)).
Qed.

Lemma run_foldLit (nick s : string) (k : string -> option string) :
  Re.run (Re.foldLit nick) s k
  = match foldLitPrefix nick s with Some rest => k rest | None => None end.
Proof.
  revert s. induction nick as [|c nick IH]; intro s; [reflexivity|].
  cbn [Re.foldLit Re.run foldLitPrefix]. rewrite run_foldByte.
  destruct (foldPrefix c s) as [rest|]; [apply IH | reflexivity].
Qed.

(** The pattern of [cleanMessage] matches at the head of [s] exactly as
    [salutationRest] reads a salutation there. *)
Lemma matchAt_mention (nick s : string) :
  Re.matchAt (Re.mention nick) s = salutationRest nick s.
Proof.
  unfold Re.matchAt, Re.mention, salutationRest. cbn [Re.run]. rewrite run_foldLit.
  destruct (foldLitPrefix nick s) as [[|sep rest]|]; try reflexivity.
  destruct (Re.oneOf ",:" sep); [|reflexivity].
  now apply starLoop_class.
Qed.

Lemma stripPrefix_Some (p s rest : string) : stripPrefix p s = Some rest -> s = p ++ rest.
Proof.
  revert s. induction p as [|c p IH]; intros s Hs; simpl in Hs.
  - now injection Hs as ->.
  - destruct s as [|d s]; [discriminate|].
    destruct (Ascii.eqb c d) eqn:Hcd; [|discriminate].
    apply Ascii.eqb_eq in Hcd as ->. simpl. f_equal. now apply IH.
Qed.

Lemma stripPrefix_append (p rest : string) : stripPrefix p (p ++ rest) = Some rest.
Proof. induction p as [|c p IH]; simpl; [reflexivity | now rewrite Ascii.eqb_refl]. Qed.

Lemma foldPrefix_Spelling (c : ascii) (s rest : string) :
  foldPrefix c s = Some rest <-> exists v, Spelling c v /\ s = v ++ rest.
Proof.
  split.
  - unfold foldPrefix. destruct s as [|b s]; [discriminate|].
    destruct (Ascii.eqb (GoStrings.lowerByte b) (GoStrings.lowerByte c)) eqn:Hb.
    + intro Hs. injection Hs as ->. apply Ascii.eqb_eq in Hb.
      exists (String b ""). split; [now constructor | reflexivity].
    + destruct (Ascii.eqb (GoStrings.lowerByte c) "k") eqn:Hk;
        [|destruct (Ascii.eqb (GoStrings.lowerByte c) "s") eqn:Hs]; try discriminate.
      * intro Hstrip. apply stripPrefix_Some in Hstrip. apply Ascii.eqb_eq in Hk.
        exists kelvin. split; [now constructor | exact Hstrip].
      * intro Hstrip. apply stripPrefix_Some in Hstrip. apply Ascii.eqb_eq in Hs.
        exists longS. split; [now constructor | exact Hstrip].
  - intros [v [Hv ->]]. destruct Hv as [b Hb|Hk|Hs].
    + simpl. now rewrite Hb, Ascii.eqb_refl.
    + unfold foldPrefix. rewrite Hk.
      change (kelvin ++ rest) with
        (String (ascii_of_N 226) (String (ascii_of_N 132) (String (ascii_of_N 170) rest))).
      cbv beta iota.
      change (String (ascii_of_N 226) (String (ascii_of_N 132) (String (ascii_of_N 170) rest)))
        with (kelvin ++ rest).
      now rewrite stripPrefix_append.
    + unfold foldPrefix. rewrite Hs.
      change (longS ++ rest) with (String (ascii_of_N 197) (String (ascii_of_N 191) rest)).
      cbv beta iota.
      change (String (ascii_of_N 197) (String (ascii_of_N 191) rest)) with (longS ++ rest).
      now rewrite stripPrefix_append.
Qed.

Lemma foldLitPrefix_SameFolded (nick s rest : string) :
  foldLitPrefix nick s = Some rest <-> exists name, SameFolded name nick /\ s = name ++ rest.
Proof.
  revert s. induction nick as [|c nick IH]; intro s; simpl.
  - split.
    + intro Hs. injection Hs as ->. exists "". split; [constructor | reflexivity].
    + intros [name [Hname ->]]. inversion Hname; subst. reflexivity.
  - split.
    + destruct (foldPrefix c s) as [mid|] eqn:Hc; [|discriminate].
      intro Hrest. apply foldPrefix_Spelling in Hc as [v [Hv ->]].
      apply IH in Hrest as [name [Hname ->]].
      exists (v ++ name). split; [now constructor | now rewrite append_assoc].
    + intros [name [Hname ->]]. inversion Hname as [|c' v text nick' Hv Htext]; subst.
      rewrite append_assoc.
      assert (Hc : foldPrefix c (v ++ text ++ rest) = Some (text ++ rest))
        by (apply foldPrefix_Spelling; now exists v).
      rewrite Hc. apply IH. now exists text.
Qed.

Lemma dropWhile_split (s : string) :
  exists ws, s = ws ++ dropWhile Re.isSpace s /\ Blank ws /\ ~ StartsBlank (dropWhile Re.isSpace s).
Proof.
  induction s as [|c s [ws [Heq [Hws Hrest]]]]; simpl.
  - exists "". simpl. tauto.
  - destruct (Re.isSpace c) eqn:Hc.
    + exists (String c ws). simpl. repeat split; try assumption. now f_equal.
    + exists "". simpl. repeat split. rewrite Hc. discriminate.
Qed.

Lemma dropWhile_Blank (ws rest : string) :
  Blank ws -> ~ StartsBlank rest -> dropWhile Re.isSpace (ws ++ rest) = rest.
Proof.
  intros Hws Hrest. induction ws as [|c ws IH]; simpl.
  - destruct rest as [|d rest]; [reflexivity|]. simpl in *.
    destruct (Re.isSpace d); [now contradiction Hrest | reflexivity].
  - destruct Hws as [Hc Hws]. rewrite Hc. now apply IH.
Qed.

Lemma oneOf_sep (sep : ascii) :
  Re.oneOf ",:" sep = true <-> sep = ":"%char \/ sep = ","%char.
Proof.
  unfold Re.oneOf. simpl. rewrite !orb_true_iff, !Ascii.eqb_eq. intuition congruence.
Qed.

(** [salutationRest] reads salutations as the specification words them. *)
Lemma salutationRest_Salutation (nick s rest : string) :
  salutationRest nick s = Some rest <-> Salutation nick s rest.
Proof.
  unfold salutationRest. split.
  - destruct (foldLitPrefix nick s) as [[|sep tail]|] eqn:Hname; try discriminate.
    destruct (Re.oneOf ",:" sep) eqn:Hsep; [|discriminate].
    intro Hrest. injection Hrest as <-.
    apply foldLitPrefix_SameFolded in Hname as [name [Hname ->]].
    destruct (dropWhile_split tail) as [ws [Htail [Hws Hstart]]].
    rewrite Htail at 1. constructor; try assumption. now apply oneOf_sep.
  - intros [name sep ws rest' Hname Hsep Hws Hstart].
    assert (Hfold : foldLitPrefix nick (name ++ String sep (ws ++ rest'))
                    = Some (String sep (ws ++ rest')))
      by (apply foldLitPrefix_SameFolded; now exists name).
    rewrite Hfold. apply oneOf_sep in Hsep. rewrite Hsep.
    now rewrite dropWhile_Blank.
Qed.

Lemma Salutation_functional (nick s r1 r2 : string) :
  Salutation nick s r1 -> Salutation nick s r2 -> r1 = r2.
Proof.
  intros H1 H2. apply salutationRest_Salutation in H1, H2. congruence.
Qed.

(** A salutation is not empty. *)
Lemma Salutation_shorter (nick s rest : string) :
  Salutation nick s rest -> (String.length rest < String.length s)%nat.
Proof.
  intros [name sep ws rest' _ _ _ _]. rewrite length_append. simpl.
  rewrite length_append. lia.
Qed.

End Matching.

(** ** Cleaning a message *)

Section Cleaning.

#[local] Open Scope string_scope.

Import Spec.






Lemma concat_cons (sep x : string) (xs : list string) :
  xs <> [] -> String.concat sep (x :: xs) = x ++ sep ++ String.concat sep xs.
Proof. destruct xs; [congruence | reflexivity]. Qed.


(** The text without its salutations is determined by the text. *)
Lemma Stripped_functional (nick s out1 out2 : string) :
  Stripped nick s out1 -> Stripped nick s out2 -> out1 = out2.
Proof.
  intro H1. revert out2.
  induction H1 as [|s rest out Hsal Hrest IH|c s out Hnone Hrest IH]; intros out2 H2.
  - inversion H2 as [|s' rest' out' Hsal' Hrest'|]; subst; [reflexivity|].
    apply Salutation_shorter in Hsal'. simpl in Hsal'. lia.
  - inversion H2 as [|s' rest' out' Hsal' Hrest'|c' s' out' Hnone' Hrest']; subst.
    + apply Salutation_shorter in Hsal. simpl in Hsal. lia.
    + rewrite (Salutation_functional _ _ _ _ Hsal' Hsal) in Hrest'. now apply IH.
    + now contradiction (Hnone' rest).
  - inversion H2 as [|s' rest' out' Hsal' Hrest'|c' s' out' Hnone' Hrest']; subst.
    + now contradiction (Hnone rest').
    + f_equal. now apply IH.
Qed.


End Cleaning.

(** ** Trimming white space *)

Section Trimming.

#[local] Open Scope string_scope.

Import Spec.

Lemma take_drop (n : nat) (s : string) : s = take n s ++ drop n s.
Proof.
  revert s. induction n as [|n IH]; intros [|c s]; simpl; try reflexivity.
  now rewrite <- IH.
Qed.

(** A white-space rune at the head of [s]: its bytes and what follows. *)
Lemma spaceWidth_head (c : ascii) (s : string) (k : nat) :
  spaceWidth (String c s) = S k ->
  exists v, SpaceRune v /\ String c s = v ++ drop k s /\ String.length v = S k.
Proof.
  intro Hw. exists (take (S k) (String c s)).
  assert (Hsplit : String c s = take (S k) (String c s) ++ drop k s)
    by (simpl; f_equal; apply take_drop).
  unfold SpaceRune. unfold spaceWidth in Hw.
  destruct (asciiSpace c) eqn:H0.
  { injection Hw as <-. repeat split; try assumption; try discriminate.
    simpl. unfold spaceWidth. now rewrite H0. }
  destruct s as [|c1 s]; [discriminate|].
  destruct ((code c =? 194)%N && ((code c1 =? 133)%N || (code c1 =? 160)%N)) eqn:H1.
  { injection Hw as <-. repeat split; try assumption; try discriminate.
    simpl. unfold spaceWidth. now rewrite H0, H1. }
  destruct s as [|c2 s]; [discriminate|].
  match type of Hw with (if ?b then _ else _) = _ => destruct b eqn:H2 end; [|discriminate].
  injection Hw as <-. repeat split; try assumption; try discriminate.
  simpl. unfold spaceWidth. now rewrite H0, H1, H2.
Qed.

(** The width of a white-space rune does not depend on what follows it. *)
Lemma SpaceRune_append (v rest : string) :
  SpaceRune v -> spaceWidth (v ++ rest) = String.length v.
Proof.
  intros [Hne Hw]. destruct v as [|c0 v]; [congruence|].
  unfold spaceWidth in *. simpl append. cbv beta iota.
  destruct (asciiSpace c0).
  { destruct v; [reflexivity | discriminate]. }
  destruct v as [|c1 v]; [discriminate|]. simpl append. cbv beta iota.
  destruct ((code c0 =? 194)%N && ((code c1 =? 133)%N || (code c1 =? 160)%N)).
  { destruct v; [reflexivity | discriminate]. }
  destruct v as [|c2 v]; [discriminate|]. simpl append. cbv beta iota.
  match type of Hw with (if ?b then _ else _) = _ => destruct b end; [|discriminate].
  destruct v; [reflexivity | discriminate].
Qed.

#[local] Arguments spaceWidth : simpl never.

Lemma trimLeftFrom_drop (s : string) :
  forall n, trimLeftFrom n s = trimLeftFrom 0 (drop n s).
Proof.
  induction s as [|c s IH]; intros [|n]; try reflexivity.
  cbn [trimLeftFrom drop]. apply IH.
Qed.

Lemma allSpaceFrom_drop (s : string) :
  forall n, allSpaceFrom n s = allSpaceFrom 0 (drop n s).
Proof.
  induction s as [|c s IH]; intros [|n]; try reflexivity.
  cbn [allSpaceFrom drop]. apply IH.
Qed.

Lemma length_drop (n : nat) (s : string) :
  String.length (drop n s) = (String.length s - n)%nat.
Proof. revert s. induction n as [|n IH]; intros [|c s]; simpl; auto. Qed.

Lemma trimLeft_spec (s : string) :
  exists before,
    s = before ++ trimLeftFrom 0 s /\ White before /\ spaceWidth (trimLeftFrom 0 s) = 0%nat.
Proof.
  remember (String.length s) as n eqn:Hn. revert s Hn.
  induction n as [n IH] using lt_wf_ind. intros s Hn.
  destruct s as [|c s]; [exists ""; repeat split; constructor|].
  cbn [trimLeftFrom]. destruct (spaceWidth (String c s)) as [|k] eqn:Hw.
  - exists "". repeat split; [constructor | exact Hw].
  - destruct (spaceWidth_head c s k Hw) as [v [Hv [Hsplit Hlen]]].
    rewrite trimLeftFrom_drop.
    destruct (IH (String.length (drop k s))) with (s := drop k s) as [before [Heq [Hwhite H0]]];
      [rewrite length_drop; subst n; simpl; lia | reflexivity |].
    exists (v ++ before). repeat split; [|now constructor | exact H0].
    rewrite append_assoc, <- Heq. exact Hsplit.
Qed.

Lemma SpaceRune_allSpace (v rest : string) :
  SpaceRune v -> allSpaceFrom 0 (v ++ rest) = allSpaceFrom 0 rest.
Proof.
  intro Hv. pose proof (SpaceRune_append v rest Hv) as Hw.
  destruct Hv as [Hne _]. destruct v as [|c v]; [congruence|].
  simpl append in *. simpl String.length in Hw. cbn [allSpaceFrom]. rewrite Hw.
  rewrite allSpaceFrom_drop. now rewrite drop_length_append.
Qed.

Lemma allSpace_White (s : string) : allSpaceFrom 0 s = true -> White s.
Proof.
  remember (String.length s) as n eqn:Hn. revert s Hn.
  induction n as [n IH] using lt_wf_ind. intros s Hn Hall.
  destruct s as [|c s]; [constructor|].
  cbn [allSpaceFrom] in Hall. destruct (spaceWidth (String c s)) as [|k] eqn:Hw; [discriminate|].
  destruct (spaceWidth_head c s k Hw) as [v [Hv [Hsplit Hlen]]].
  rewrite allSpaceFrom_drop in Hall.
  rewrite Hsplit. constructor; [exact Hv|].
  apply (IH (String.length (drop k s)));
    [rewrite length_drop; subst n; simpl; lia | reflexivity | exact Hall].
Qed.

Lemma trimRight_spec (t : string) :
  exists after,
    t = trimRight t ++ after /\ allSpaceFrom 0 after = true /\
    (forall pre suf, trimRight t = pre ++ suf -> suf <> "" ->
                     allSpaceFrom 0 (suf ++ after) = false).
Proof.
  induction t as [|c t [after [Heq [Hall Hend]]]].
  - exists "". repeat split. intros [|? ?] [|? ?]; simpl; congruence.
  - cbn [trimRight]. destruct (allSpaceFrom 0 (String c t)) eqn:Hhere.
    + exists (String c t). repeat split; [exact Hhere|].
      intros [|? ?] [|? ?]; simpl; congruence.
    + exists after. repeat split; [simpl; now rewrite <- Heq | exact Hall|].
      intros pre suf Hsplit Hsuf. destruct pre as [|d pre]; simpl in Hsplit.
      * rewrite <- Hsplit. simpl. now rewrite <- Heq.
      * injection Hsplit as _ Hsplit. now apply Hend with (pre := pre).
Qed.

(** [strings.TrimSpace] trims. *)
Lemma TrimSpace_Trimmed (s : string) : Trimmed s (TrimSpace s).
Proof.
  unfold TrimSpace.
  destruct (trimLeft_spec s) as [before [Hs [Hbefore Hstart]]].
  destruct (trimRight_spec (trimLeftFrom 0 s)) as [after [Ht [Hafter Hend]]].
  exists before, after. repeat split.
  - now rewrite <- Ht.
  - exact Hbefore.
  - now apply allSpace_White.
  - rewrite Ht in Hstart. now apply spaceWidth_prefix in Hstart.
  - intros pre v Hsplit Hv.
    assert (Hne : v <> "") by apply Hv.
    specialize (Hend pre v Hsplit Hne).
    rewrite SpaceRune_allSpace in Hend by exact Hv. congruence.
Qed.

End Trimming.

(** ** [cleanMessage] *)

Section CleanMessage.

#[local] Open Scope string_scope.

Import Spec.

(** A string of ASCII bytes is valid UTF-8. *)
Lemma isASCII_validUTF8 (s : string) : isASCII s = true -> Call.validUTF8 s = true.
Proof.
  induction s as [|c s IH]; [reflexivity|].
  cbn [isASCII Call.validUTF8]. intro Hascii.
  apply andb_prop in Hascii as [Hc Hs]. unfold isASCIIByte in Hc.
  rewrite Hc. apply IH, Hs.
Qed.

(** For an IRC nickname the call returns what [cleanMessage] computes. *)
Lemma Call_cleanMessage_ircNick `{Call.Patterns} (cfg : Config) (message : string) :
  Call.ircNick (Nick cfg) = true ->
  Call.cleanMessage cfg message = Call.Returns (cleanMessage cfg message).
Proof.
  intro Hnick. unfold Call.cleanMessage. rewrite Hnick.
  unfold Call.ircNick in Hnick. apply andb_prop in Hnick as [Hascii _].
  rewrite (isASCII_validUTF8 _ Hascii). reflexivity.
Qed.





End CleanMessage.

(** * Further properties *)

(** ** The window in closed form *)

Section WindowClosedForm.

Import More.

Lemma lastN_short {A : Type} (n : nat) (l : list A) :
  (List.length l <= n)%nat -> lastN n l = l.
Proof.
  intro Hlen. unfold lastN. replace (List.length l - n)%nat with 0%nat by lia. reflexivity.
Qed.

Lemma length_lastN {A : Type} (n : nat) (l : list A) :
  List.length (lastN n l) = Nat.min n (List.length l).
Proof. unfold lastN. rewrite length_skipn. lia. Qed.

(** The last [n] of a list extended at the end can be taken from its own
    last [n]. *)
Lemma lastN_app {A : Type} (n : nat) (l more : list A) :
  lastN n (lastN n l ++ more) = lastN n (l ++ more).
Proof.
  unfold lastN. rewrite !length_app, length_skipn, !skipn_app, skipn_skipn, length_skipn.
  f_equal; f_equal; lia.
Qed.

(** One append to a window that opens with a pinned entry. *)
Lemma appendBounded_pinned (p : Message) (w : list Message) (m : Message) :
  (List.length w <= 18)%nat -> appendBounded (p :: w) m = p :: lastN 18 (w ++ [m]).
Proof.
  intro Hlen. destruct (Nat.eq_dec (List.length w) 18) as [Hfull|Hroom].
  - rewrite appendBounded_full by exact Hfull. f_equal. unfold lastN.
    rewrite length_app, Hfull. simpl. destruct w; [discriminate | reflexivity].
  - rewrite appendBounded_room by (simpl; lia).
    rewrite lastN_short by (rewrite length_app; simpl; lia). reflexivity.
Qed.

Lemma addAll_pinned (bot : IRCBot) (p : Message) (w ms : list Message) :
  context bot = p :: w -> (List.length w <= 18)%nat ->
  context (addAll bot ms) = p :: lastN 18 (w ++ ms).
Proof.
  intros Hctx Hlen. induction ms as [|m ms IH] using rev_ind.
  - rewrite app_nil_r, lastN_short by exact Hlen. exact Hctx.
  - rewrite addAll_snoc, context_addToContext, IH.
    rewrite appendBounded_pinned by (rewrite length_lastN; lia).
    now rewrite lastN_app, app_assoc.
Qed.

Lemma addAll_cons (bot : IRCBot) (m : Message) (ms : list Message) :
  addAll bot (m :: ms) = addAll (addToContext bot m) ms.
Proof. reflexivity. Qed.

(** X1. When the persona is not empty, the window after any run of appends
    to a new bot is the persona entry followed by the last 18 of the entries
    appended, in their order (all of them when there are fewer). *)
Theorem persona_window_closed_form :
  forall (cfg : Config) (http : string -> HttpReply) (ms : list Message),
    Persona cfg <> EmptyString ->
    context (addAll (NewIRCBot cfg http) ms)
    = {| Role := "system"; Content := Persona cfg |} :: lastN 18 ms.
Proof.
  intros cfg http ms Hpersona.
  apply (addAll_pinned _ _ [] ms); [|simpl; lia].
  unfold NewIRCBot. now rewrite (is_empty_false _ Hpersona).
Qed.

Lemma persona_window_closed_form_witness :
  context (addAll (NewIRCBot (Sample.steve "P") Sample.answering) (Sample.turns 1 40))
  = {| Role := "system"; Content := "P" |} :: Sample.turns 23 18.
Proof.
  rewrite (persona_window_closed_form (Sample.steve "P") Sample.answering (Sample.turns 1 40))
    by discriminate.
  reflexivity.
Defined.

(** X2. When the persona is empty, the first entry ever appended takes the
    pinned place: the window after a run of appends is that first entry
    followed by the last 18 of the entries appended after it. *)
Theorem first_entry_pinned_without_persona :
  forall (cfg : Config) (http : string -> HttpReply) (m : Message) (ms : list Message),
    Persona cfg = EmptyString ->
    context (addAll (NewIRCBot cfg http) (m :: ms)) = m :: lastN 18 ms.
Proof.
  intros cfg http m ms Hpersona. rewrite addAll_cons.
  apply (addAll_pinned _ _ [] ms); [|simpl; lia].
  unfold NewIRCBot. rewrite Hpersona. reflexivity.
Qed.

Lemma first_entry_pinned_without_persona_witness :
  context (addAll (NewIRCBot (Sample.steve "") Sample.answering) (Sample.turns 1 40))
  = Sample.turn 1 :: Sample.turns 23 18.
Proof.
  change (Sample.turns 1 40) with (Sample.turn 1 :: Sample.turns 2 39).
  rewrite (first_entry_pinned_without_persona (Sample.steve "") Sample.answering)
    by reflexivity.
  reflexivity.
Defined.

(** X3. The entry just appended is the last entry of the window, whatever
    the window was: an append never evicts the entry it adds. *)
Theorem appended_entry_is_last :
  forall (bot : IRCBot) (m d : Message),
    last (context (addToContext bot m)) d = m.
Proof.
  intros bot m d. rewrite context_addToContext.
  destruct (appendBounded_last (context bot) m) as [earlier ->].
  apply last_last.
Qed.

End WindowClosedForm.

(** ** Start-up *)

Section StartupProperties.

Import More Startup.

Lemma getEnvOrDefault_nonempty (env : string -> string) (key defaultValue : string) :
  defaultValue <> EmptyString -> getEnvOrDefault env key defaultValue <> EmptyString.
Proof.
  intros Hdefault. unfold getEnvOrDefault.
  destruct (env key) as [|c value] eqn:Hvalue; simpl; [exact Hdefault | discriminate].
Qed.

Lemma Persona_mainConfig (env : string -> string) (compile : string -> option Regexp) :
  Persona (mainConfig env compile) = getEnvOrDefault env "BOT_PERSONA" defaultPersona.
Proof.
  unfold mainConfig. destruct (negb _); [|reflexivity].
  destruct (compile _); reflexivity.
Qed.

(** X4. Whatever the environment holds and whether or not the trigger
    pattern compiles, the bot that [main] creates has a persona that is not
    empty, an empty or unset [BOT_PERSONA] giving the default one; its window
    after any run of appends is the persona entry followed by the last 18
    entries appended. *)
Theorem main_bot_always_has_persona :
  forall (env : string -> string) (compile : string -> option Regexp)
         (http : string -> HttpReply) (ms : list Message),
    let cfg := mainConfig env compile in
    Persona cfg <> EmptyString /\
    (env "BOT_PERSONA" = EmptyString -> Persona cfg = defaultPersona) /\
    context (addAll (mainBot env compile http) ms)
    = {| Role := "system"; Content := Persona cfg |} :: lastN 18 ms.
Proof.
  intros env compile http ms cfg.
  assert (Hpersona : Persona cfg <> EmptyString).
  { unfold cfg. rewrite Persona_mainConfig. now apply getEnvOrDefault_nonempty. }
  split; [exact Hpersona|]. split.
  - intro Hunset. unfold cfg. rewrite Persona_mainConfig. unfold getEnvOrDefault.
    now rewrite Hunset.
  - apply (addAll_pinned _ _ [] ms); [|simpl; lia].
    unfold mainBot, NewIRCBot. fold cfg. now rewrite (is_empty_false _ Hpersona).
Qed.

Lemma main_bot_always_has_persona_witness :
  Persona (mainConfig (setenv "IRC_NICK" "Steve") rejectAll) = defaultPersona.
Proof.
  apply (main_bot_always_has_persona (setenv "IRC_NICK" "Steve") rejectAll Sample.answering []).
  reflexivity.
Defined.

Lemma TriggerPattern_mainConfig (env : string -> string) (compile : string -> option Regexp) :
  TriggerPattern (mainConfig env compile)
  = compile (getEnvOrDefault env "TRIGGER_PATTERN" "(?i)(steve|^!)").
Proof.
  unfold mainConfig, getEnvOrDefault.
  destruct (env "TRIGGER_PATTERN") as [|c source]; simpl; now destruct (compile _).
Qed.

Section WithUnicode.

#[local] Open Scope string_scope.

Context `{Unicode}.

(** X5. When the trigger pattern that [main] reads, [TRIGGER_PATTERN] or
    the default for an empty or unset one, does not compile, the bot is
    configured all the same, without a trigger pattern: it then engages with
    a message exactly when the message is sent to its nick or names the nick
    in its lower-cased text. *)
Theorem rejected_trigger_pattern_is_dropped :
  forall (env : string -> string) (compile : string -> option Regexp) (e : Event),
    let cfg := mainConfig env compile in
    compile (getEnvOrDefault env "TRIGGER_PATTERN" "(?i)(steve|^!)") = None ->
    TriggerPattern cfg = None /\
    (shouldRespond cfg e = true <->
       EvTarget e = Nick cfg \/
       Spec.Substring (ToLower (Nick cfg)) (ToLower (EvMessage e))).
Proof.
  intros env compile e cfg Hreject.
  assert (Hnone : TriggerPattern cfg = None)
    by (unfold cfg; now rewrite TriggerPattern_mainConfig).
  split; [exact Hnone|].
  unfold shouldRespond. rewrite orb_true_iff, shouldRespondToMessage_iff, String.eqb_eq, Hnone.
  split; [|tauto].
  intros [Hd|[Hs|[pattern [Hp _]]]]; [now left | now right | discriminate].
Qed.

End WithUnicode.

Lemma rejected_trigger_pattern_is_dropped_witness :
  TriggerPattern (mainConfig (setenv "TRIGGER_PATTERN" "(") rejectAll) = None.
Proof.
  apply (rejected_trigger_pattern_is_dropped (H := Sample.plainUnicode)
           (setenv "TRIGGER_PATTERN" "(") rejectAll (mkEvent "alice" "#lobby" ["hi"])).
  reflexivity.
Defined.

End StartupProperties.

(** ** The prompt and the request *)

Section PromptAndRequest.

#[local] Open Scope string_scope.

Import More.

Lemma knownRole_valid (role : string) : knownRole role = true <-> Spec.ValidRole role.
Proof.
  unfold knownRole, Spec.ValidRole. rewrite !orb_true_iff, !String.eqb_eq. tauto.
Qed.

Lemma writeEntry_unknown (b : string) (entry : Message) :
  knownRole (Role entry) = false -> writeEntry b entry = b.
Proof.
  unfold knownRole, writeEntry. intro Hrole.
  apply orb_false_elim in Hrole as [Hrole Hassistant].
  apply orb_false_elim in Hrole as [Hsystem Huser].
  now rewrite Hsystem, Huser, Hassistant.
Qed.

Lemma fold_writeEntry_known (window : list Message) (b : string) :
  fold_left writeEntry window b
  = b ++ String.concat "" (map Spec.render (filter (fun entry => knownRole (Role entry)) window)).
Proof.
  revert b. induction window as [|entry window IH]; intro b; simpl.
  - now rewrite append_nil_r.
  - rewrite IH. destruct (knownRole (Role entry)) eqn:Hrole.
    + rewrite writeEntry_render by now apply knownRole_valid.
      rewrite append_assoc. f_equal. simpl.
      destruct (map Spec.render _); simpl; [now rewrite append_nil_r | reflexivity].
    + now rewrite writeEntry_unknown.
Qed.

(** X6. [buildPrompt] writes nothing for an entry whose role is none of
    ["system"], ["user"] and ["assistant"]: for any window, the prompt is the
    rendering of the entries with one of these roles, in their order,
    followed by the cue. *)
Theorem buildPrompt_skips_unknown_roles :
  forall bot : IRCBot,
    fst (buildPrompt bot)
    = Spec.serialize (filter (fun entry => knownRole (Role entry)) (context bot)).
Proof.
  intro bot. unfold buildPrompt, bind, gets, ret, WriteString, Spec.serialize. simpl.
  now rewrite fold_writeEntry_known.
Qed.

(** X7. Whatever the text service answers, [getAIResponse] makes exactly
    one call, the request for the prompt of the window with the user entry
    appended, and leaves the configuration and the client as they are: there
    is no second attempt after a failure. *)
Theorem getAIResponse_requests_once :
  forall (message fromNick : string) (bot : IRCBot),
    let bot1 := addToContext bot (Spec.userEntry fromNick message) in
    let bot' := snd (getAIResponse message fromNick bot) in
    trace bot' = (trace bot ++ [Get (Spec.promptURL bot1)])%list /\
    config bot' = config bot /\ client bot' = client bot.
Proof.
  intros message fromNick bot bot1 bot'. subst bot'.
  rewrite getAIResponse_steps. fold bot1. cbv zeta.
  destruct (client bot (Spec.promptURL bot1)) as [cause|code body readErr];
    [now repeat split|].
  destruct (negb (code =? 200)%Z); [now repeat split|].
  destruct readErr; now repeat split.
Qed.

End PromptAndRequest.

(** ** The URL of a request *)

Section RequestURL.

#[local] Open Scope string_scope.

Import More.

Lemma QueryEscape_byte_safe (c : ascii) (s : string) :
  allBytes urlSafe (GoURL.QueryEscape (String c s)) = allBytes urlSafe (GoURL.QueryEscape s).
Proof.
  destruct c as [[|] [|] [|] [|] [|] [|] [|] [|]]; reflexivity.
Qed.

Lemma QueryEscape_safe (s : string) : allBytes urlSafe (GoURL.QueryEscape s) = true.
Proof.
  induction s as [|c s IH]; [reflexivity | now rewrite QueryEscape_byte_safe].
Qed.

Lemma unescape_byte (c : ascii) (s : string) :
  unescape (GoURL.QueryEscape (String c s)) = String c (unescape (GoURL.QueryEscape s)).
Proof.
  destruct c as [[|] [|] [|] [|] [|] [|] [|] [|]]; reflexivity.
Qed.

Lemma unescape_QueryEscape (s : string) : unescape (GoURL.QueryEscape s) = s.
Proof.
  induction s as [|c s IH]; [reflexivity | now rewrite unescape_byte, IH].
Qed.

(** X8. The URL that [getAIResponse] requests is the address of the text
    service followed by the escaped prompt, in which every byte is a letter
    or a digit of ASCII, one of [-_.~], a plus sign or a percent sign: no
    space, line feed, slash or question mark of the prompt reaches the URL
    as it is. *)
Theorem request_url_is_safe :
  forall bot : IRCBot,
    exists path : string,
      Spec.promptURL bot = "https://text.pollinations.ai/" ++ path /\
      allBytes urlSafe path = true.
Proof.
  intro bot. exists (GoURL.QueryEscape (fst (buildPrompt bot))).
  split; [reflexivity | apply QueryEscape_safe].
Qed.

(** X9. Escaping loses nothing: reading a plus sign as a space and a
    percent sign with two hexadecimal digits as a byte gives the prompt back,
    so that two windows are requested under the same URL only when their
    prompts are the same. *)
Theorem request_url_determines_prompt :
  forall bot1 bot2 : IRCBot,
    unescape (GoURL.QueryEscape (fst (buildPrompt bot1))) = fst (buildPrompt bot1) /\
    (Spec.promptURL bot1 = Spec.promptURL bot2 ->
     fst (buildPrompt bot1) = fst (buildPrompt bot2)).
Proof.
  intros bot1 bot2. split; [apply unescape_QueryEscape|].
  unfold Spec.promptURL. intro Hurl.
  apply (f_equal (drop (String.length "https://text.pollinations.ai/"))) in Hurl.
  rewrite !drop_length_append in Hurl.
  apply (f_equal unescape) in Hurl. now rewrite !unescape_QueryEscape in Hurl.
Qed.

Lemma request_url_determines_prompt_witness :
  fst (buildPrompt (NewIRCBot (Sample.steve "P") Sample.answering))
  = fst (buildPrompt (NewIRCBot (Sample.steve "P") Sample.failing)).
Proof.
  apply (request_url_determines_prompt
           (NewIRCBot (Sample.steve "P") Sample.answering)
           (NewIRCBot (Sample.steve "P") Sample.failing)).
  reflexivity.
Defined.

End RequestURL.

(** ** Mentions *)

Section Mentions.

#[local] Open Scope string_scope.

Import More.

Context `{Unicode}.

Lemma mapBytes_append (f : ascii -> ascii) (a b : string) :
  mapBytes f (a ++ b) = mapBytes f a ++ mapBytes f b.
Proof. induction a as [|c a IH]; simpl; [reflexivity | now rewrite IH]. Qed.

Lemma lower_no_upper (s : string) : hasUpper s = false -> lower s = s.
Proof.
  unfold lower. induction s as [|c s IH]; simpl; [reflexivity|].
  intro Hup. apply orb_false_elim in Hup as [Hc Hs].
  rewrite IH by exact Hs. unfold lowerByte. now rewrite Hc.
Qed.

(** On ASCII text [strings.ToLower] lowers byte by byte. *)
Lemma ToLower_ascii (s : string) : isASCII s = true -> ToLower s = lower s.
Proof.
  intro Hascii. unfold ToLower. rewrite Hascii.
  destruct (hasUpper s) eqn:Hup; [reflexivity | symmetry; now apply lower_no_upper].
Qed.

(** X10. On ASCII text the case of letters does not matter for a mention:
    a message that holds the nick spelled in any mix of upper and lower case
    is one that [shouldRespondToMessage] answers, whether or not a trigger
    pattern is configured. *)
Theorem mention_in_any_case_engages :
  forall (cfg : Config) (before name after : string),
    isASCII (before ++ name ++ after) = true ->
    isASCII (Nick cfg) = true ->
    lower name = lower (Nick cfg) ->
    shouldRespondToMessage cfg (before ++ name ++ after) = true.
Proof.
  intros cfg before name after Hmessage Hnick Hname.
  apply shouldRespondToMessage_iff. left.
  rewrite !ToLower_ascii by assumption.
  exists (lower before), (lower after). unfold lower in *.
  now rewrite !mapBytes_append, Hname.
Qed.

End Mentions.

Lemma mention_in_any_case_engages_witness :
  shouldRespondToMessage (H := Sample.plainUnicode) (Sample.steve "P") "is sTeVe here?" = true.
Proof.
  apply (mention_in_any_case_engages (H := Sample.plainUnicode)
           (Sample.steve "P") "is " "sTeVe" " here?"); reflexivity.
Defined.

Section Unaddressed.

#[local] Open Scope string_scope.

Import Spec.

Lemma count_append (c : ascii) (a b : string) :
  count c (a ++ b) = (count c a + count c b)%nat.
Proof. induction a as [|x a IH]; simpl; [reflexivity | rewrite IH; lia]. Qed.

(** A salutation holds a colon or a comma. *)
Lemma Salutation_separator (nick s rest : string) :
  Salutation nick s rest -> (0 < count ":" s + count "," s)%nat.
Proof.
  intros [name sep ws rest' _ Hsep _ _]. rewrite !count_append. simpl.
  destruct Hsep as [-> | ->]; simpl; lia.
Qed.

Lemma search_no_separator (nick s : string) :
  count ":" s = 0%nat -> count "," s = 0%nat -> Re.search (Re.mention nick) s = None.
Proof.
  induction s as [|c s IH]; intros Hcolon Hcomma; cbn [Re.search].
  - destruct (Re.matchAt (Re.mention nick) "") eqn:Hhere; [|reflexivity].
    rewrite matchAt_mention in Hhere. apply salutationRest_Salutation in Hhere.
    apply Salutation_separator in Hhere. simpl in Hhere. lia.
  - destruct (Re.matchAt (Re.mention nick) (String c s)) eqn:Hhere.
    + rewrite matchAt_mention in Hhere. apply salutationRest_Salutation in Hhere.
      apply Salutation_separator in Hhere. lia.
    + simpl in Hcolon, Hcomma. rewrite IH by lia. reflexivity.
Qed.

(** X11. A message that holds neither a colon nor a comma addresses nobody:
    for a nick that is an IRC nickname (ASCII bytes, at most 512 of them)
    the call of [cleanMessage] returns it with the white space around it
    trimmed and nothing else changed, or the greeting when it is white space
    only. *)
Theorem unaddressed_message_is_only_trimmed :
  forall (P : Call.Patterns) (cfg : Config) (message : string),
    Call.ircNick (Nick cfg) = true ->
    count ":" message = 0%nat -> count "," message = 0%nat ->
    Call.cleanMessage cfg message
    = Call.Returns (if is_empty (TrimSpace message) then "Hello!" else TrimSpace message).
Proof.
  intros P cfg message Hnick Hcolon Hcomma.
  rewrite (Call_cleanMessage_ircNick cfg message Hnick). f_equal.
  unfold cleanMessage, Re.ReplaceAllString.
  destruct (String.length message) as [|fuel] eqn:Hlen.
  - destruct message; [reflexivity | discriminate].
  - cbn [Re.scan]. rewrite search_no_separator by assumption. reflexivity.
Qed.

Lemma unaddressed_message_is_only_trimmed_witness :
  Call.cleanMessage (patterns := Sample.noOtherPatterns) (Sample.steve "P")
    "  anyone seen steve?  "
  = Call.Returns "anyone seen steve?".
Proof.
  rewrite (unaddressed_message_is_only_trimmed Sample.noOtherPatterns (Sample.steve "P")
             "  anyone seen steve?  ")
    by reflexivity.
  reflexivity.
Defined.

End Unaddressed.

(** ** Pacing *)

Section Pacing.

#[local] Open Scope string_scope.

Import More.

Lemma paced_app (t : string) (a b : list string) :
  paced t (a ++ b) = (paced t a ++ paced t b)%list.
Proof. unfold paced. apply flat_map_app. Qed.

Lemma flush_paced (t cur : string) (cs : list string) :
  exists cs', flush t cur (paced t cs) = paced t cs'.
Proof.
  unfold flush. destruct (is_empty cur).
  - now exists cs.
  - exists (cs ++ [cur])%list. now rewrite paced_app.
Qed.

Lemma wordStep_paced (m : Z) (t : string) (st : string * list Effect) (w : string) :
  (exists cs, snd st = paced t cs) -> exists cs, snd (wordStep m t st w) = paced t cs.
Proof.
  destruct st as [cur out]. simpl. intros [cs ->]. unfold wordStep.
  destruct (len cur + len w + 1 <=? m)%Z; simpl; [now exists cs | apply flush_paced].
Qed.

Lemma words_paced (m : Z) (t : string) (ws : list string) (st : string * list Effect) :
  (exists cs, snd st = paced t cs) ->
  exists cs, snd (fold_left (wordStep m t) ws st) = paced t cs.
Proof.
  revert st. induction ws as [|w ws IH]; intros st Hst; simpl; [exact Hst|].
  apply IH. now apply wordStep_paced.
Qed.

Lemma sentenceStep_paced (m : Z) (t : string) (st : string * list Effect) (s : string) :
  (exists cs, snd st = paced t cs) -> exists cs, snd (sentenceStep m t st s) = paced t cs.
Proof.
  destruct st as [cur out]. simpl. intros [cs ->]. unfold sentenceStep.
  destruct (len cur + len s + 1 <=? m)%Z; simpl; [now exists cs|].
  destruct (flush_paced t cur cs) as [cs' ->].
  destruct (len s >? m)%Z; simpl; [|now exists cs'].
  apply words_paced. simpl. now exists cs'.
Qed.

Lemma sentences_paced (m : Z) (t : string) (ss : list string) (st : string * list Effect) :
  (exists cs, snd st = paced t cs) ->
  exists cs, snd (fold_left (sentenceStep m t) ss st) = paced t cs.
Proof.
  revert st. induction ss as [|s ss IH]; intros st Hst; simpl; [exact Hst|].
  apply IH. now apply sentenceStep_paced.
Qed.

Lemma outgoing_paced (m : Z) (t response : string) :
  exists (cs : list string) (tail : list Effect),
    outgoing m t response = (paced t cs ++ tail)%list /\
    (tail = [] \/ exists c, tail = [Privmsg t c]).
Proof.
  unfold outgoing. destruct (len response <=? m)%Z.
  - exists [], [Privmsg t response]. split; [reflexivity | right; now exists response].
  - destruct (sentences_paced m t (Re.Split Re.sentenceEnd response) ("", []))
      as [cs Hcs]; [now exists []|].
    destruct (fold_left (sentenceStep m t) _ ("", [])) as [cur out]. simpl in Hcs. subst out.
    destruct (is_empty cur).
    + exists cs, []. split; [now rewrite app_nil_r | now left].
    + exists cs, [Privmsg t cur]. split; [reflexivity | right; now exists cur].
Qed.

(** X12. What [sendResponse] does on the connection, for any reply and any
    line length, is a run of lines to the target, each followed by a pause of
    500 ms, and then at most one last line without a pause: two lines are
    never sent without a pause between them, and no other call is made. *)
Theorem lines_are_paced :
  forall (maxLength : Z) (target response : string),
    exists (cs : list string) (tail : list Effect),
      outgoing maxLength target response = (paced target cs ++ tail)%list /\
      (tail = [] \/ exists c, tail = [Privmsg target c]).
Proof. exact outgoing_paced. Qed.

End Pacing.

(** ** Where the bytes of a line come from *)

Section Bytes.

#[local] Open Scope string_scope.

Import More.

Lemma allBytes_append (p : ascii -> bool) (a b : string) :
  allBytes p (a ++ b) = allBytes p a && allBytes p b.
Proof. induction a as [|c a IH]; simpl; [reflexivity | now rewrite IH, andb_assoc]. Qed.

Lemma Suffix_refl (s : string) : Suffix s s.
Proof. now exists "". Qed.

Lemma Suffix_trans (a b c : string) : Suffix a b -> Suffix b c -> Suffix a c.
Proof. intros [x ->] [y ->]. exists (y ++ x). now rewrite append_assoc. Qed.

Lemma Suffix_allBytes (p : ascii -> bool) (s' s : string) :
  Suffix s' s -> allBytes p s = true -> allBytes p s' = true.
Proof. intros [before ->]. rewrite allBytes_append. now intros [_ Hs]%andb_prop. Qed.

Lemma starLoop_suffix (step : string -> (string -> option string) -> option string) :
  (forall s k res, step s k = Some res -> exists s', Suffix s' s /\ k s' = Some res) ->
  forall fuel s k res,
    Re.starLoop step k fuel s = Some res -> exists s', Suffix s' s /\ k s' = Some res.
Proof.
  intros Hstep. induction fuel as [|fuel IH]; intros s k res Hrun; simpl in Hrun.
  - exists s. split; [apply Suffix_refl | exact Hrun].
  - destruct (step s _) as [rest|] eqn:Hround.
    + injection Hrun as ->. apply Hstep in Hround as [s1 [Hs1 Hcont]].
      destruct (String.length s1 <? String.length s)%nat; [|discriminate].
      apply IH in Hcont as [s2 [Hs2 Hk]].
      exists s2. split; [now apply Suffix_trans with s1 | exact Hk].
    + exists s. split; [apply Suffix_refl | exact Hrun].
Qed.

(** A match ends somewhere in the text: what is handed on is an end of it. *)
Lemma run_suffix (r : Re.regex) :
  forall s k res, Re.run r s k = Some res -> exists s', Suffix s' s /\ k s' = Some res.
Proof.
  induction r as [|p|r1 IH1 r2 IH2|r1 IH1 r2 IH2|r1 IH1]; intros s k res Hrun; cbn [Re.run] in Hrun.
  - exists s. split; [apply Suffix_refl | exact Hrun].
  - destruct s as [|c s]; [discriminate|]. destruct (p c); [|discriminate].
    exists s. split; [now exists (String c "") | exact Hrun].
  - apply IH1 in Hrun as [s1 [Hs1 Hrun]]. apply IH2 in Hrun as [s2 [Hs2 Hk]].
    exists s2. split; [now apply Suffix_trans with s1 | exact Hk].
  - destruct (Re.run r1 s k) as [rest|] eqn:Hfirst.
    + injection Hrun as ->. now apply IH1.
    + now apply IH2.
  - now apply (starLoop_suffix (Re.run r1) IH1) in Hrun.
Qed.

Lemma search_bytes (p : ascii -> bool) (r : Re.regex) (s gap rest : string) :
  Re.search r s = Some (gap, rest) -> allBytes p s = true ->
  allBytes p gap = true /\ allBytes p rest = true.
Proof.
  revert gap. induction s as [|c s IH]; intros gap Hsearch Hs; cbn [Re.search] in Hsearch.
  - destruct (Re.matchAt r "") as [rest0|] eqn:Hhere; [|discriminate].
    injection Hsearch as <- <-. split; [reflexivity|].
    apply run_suffix in Hhere as [s' [Hs' Heq]]. injection Heq as ->.
    now apply (Suffix_allBytes p _ _ Hs').
  - destruct (Re.matchAt r (String c s)) as [rest0|] eqn:Hhere.
    + injection Hsearch as <- <-. split; [reflexivity|].
      apply run_suffix in Hhere as [s' [Hs' Heq]]. injection Heq as ->.
      now apply (Suffix_allBytes p _ _ Hs').
    + destruct (Re.search r s) as [[gap' rest']|]; [|discriminate].
      injection Hsearch as <- <-. simpl in Hs. apply andb_prop in Hs as [Hc Hs].
      destruct (IH gap' eq_refl Hs) as [Hgap Hrest].
      split; [simpl; now rewrite Hc | exact Hrest].
Qed.

(** The pieces between the matches of any pattern are made of bytes of the
    text. *)
Lemma scan_bytes (p : ascii -> bool) (r : Re.regex) :
  forall fuel s, allBytes p s = true ->
    Forall (fun piece => allBytes p piece = true)
           (let (gaps, tail) := Re.scan fuel r s in gaps ++ [tail])%list.
Proof.
  induction fuel as [|fuel IH]; intros s Hs; cbn [Re.scan].
  - simpl. now repeat constructor.
  - destruct (Re.search r s) as [[gap rest]|] eqn:Hsearch; [|simpl; now repeat constructor].
    destruct (search_bytes p r s gap rest Hsearch Hs) as [Hgap Hrest].
    destruct (String.length rest <? String.length s)%nat; [|simpl; now repeat constructor].
    specialize (IH rest Hrest). destruct (Re.scan fuel r rest) as [gaps tail].
    simpl. now constructor.
Qed.

Lemma Split_bytes (p : ascii -> bool) (r : Re.regex) (s : string) :
  allBytes p s = true -> Forall (fun piece => allBytes p piece = true) (Re.Split r s).
Proof. intro Hs. unfold Re.Split. apply (scan_bytes p r (String.length s) s Hs). Qed.

Lemma fieldsFrom_bytes (p : ascii -> bool) (s : string) :
  forall skip cur, allBytes p cur = true -> allBytes p s = true ->
    Forall (fun w => allBytes p w = true) (fieldsFrom skip cur s).
Proof.
  induction s as [|c s IH]; intros skip cur Hcur Hs; cbn [fieldsFrom].
  - unfold flushField. destruct (is_empty cur); now repeat constructor.
  - simpl in Hs. apply andb_prop in Hs as [Hc Hs].
    destruct skip as [|n]; [|now apply IH].
    destruct (spaceWidth (String c s)) as [|n].
    + apply IH; [|exact Hs]. unfold snoc. rewrite allBytes_append. simpl.
      now rewrite Hcur, Hc.
    + apply Forall_app. split; [|now apply IH].
      unfold flushField. destruct (is_empty cur); now repeat constructor.
Qed.

Lemma Fields_bytes (p : ascii -> bool) (s : string) :
  allBytes p s = true -> Forall (fun w => allBytes p w = true) (Fields s).
Proof. intro Hs. now apply fieldsFrom_bytes. Qed.

(** *** The loops only join pieces *)

Section LoopClosure.

Variable maxLength : Z.
Variable target : string.
Variable P : string -> Prop.

Hypothesis P_empty : P "".
Hypothesis P_extend : forall a b, P a -> P b -> P (extend a b).

Lemma flush_Joined (cur : string) (out : list Effect) :
  P cur -> Forall P (lines out) -> Forall P (lines (flush target cur out)).
Proof.
  intros Hcur Hout. rewrite lines_flush. apply Forall_app. split; [exact Hout|].
  destruct (is_empty cur); now repeat constructor.
Qed.

Lemma wordStep_Joined (st : string * list Effect) (w : string) :
  Joined P st -> P w -> Joined P (wordStep maxLength target st w).
Proof.
  destruct st as [cur out]. intros [Hcur Hout] Hw. unfold wordStep, Joined.
  destruct (len cur + len w + 1 <=? maxLength)%Z; simpl.
  - split; [now apply P_extend | exact Hout].
  - split; [exact Hw | now apply flush_Joined].
Qed.

Lemma words_Joined (ws : list string) (st : string * list Effect) :
  Joined P st -> Forall P ws -> Joined P (fold_left (wordStep maxLength target) ws st).
Proof.
  revert st. induction ws as [|w ws IH]; intros st Hst Hws; simpl; [exact Hst|].
  inversion Hws; subst. apply IH; [now apply wordStep_Joined | assumption].
Qed.

Lemma sentenceStep_Joined (st : string * list Effect) (s : string) :
  Joined P st -> P s -> Forall P (Fields s) -> Joined P (sentenceStep maxLength target st s).
Proof.
  destruct st as [cur out]. intros [Hcur Hout] Hs Hws. unfold sentenceStep.
  destruct (len cur + len s + 1 <=? maxLength)%Z.
  - split; simpl; [now apply P_extend | exact Hout].
  - destruct (len s >? maxLength)%Z.
    + apply words_Joined; [|exact Hws]. split; simpl; [exact P_empty | now apply flush_Joined].
    + split; simpl; [exact Hs | now apply flush_Joined].
Qed.

Lemma sentences_Joined (ss : list string) (st : string * list Effect) :
  Joined P st -> Forall (fun s => P s /\ Forall P (Fields s)) ss ->
  Joined P (fold_left (sentenceStep maxLength target) ss st).
Proof.
  revert st. induction ss as [|s ss IH]; intros st Hst Hss; simpl; [exact Hst|].
  inversion Hss as [|? ? [Hs Hws] Hrest]; subst.
  apply IH; [now apply sentenceStep_Joined | assumption].
Qed.

Lemma outgoing_Joined (response : string) :
  P response ->
  Forall (fun s => P s /\ Forall P (Fields s)) (Re.Split Re.sentenceEnd response) ->
  Forall P (lines (outgoing maxLength target response)).
Proof.
  intros Hresponse Hpieces. unfold outgoing.
  destruct (len response <=? maxLength)%Z; [simpl; now repeat constructor|].
  destruct (sentences_Joined (Re.Split Re.sentenceEnd response) ("", [])) as [Hcur Hout];
    [split; simpl; [exact P_empty | constructor] | exact Hpieces |].
  destruct (fold_left (sentenceStep maxLength target) _ ("", [])) as [cur out].
  simpl in Hcur, Hout. destruct (is_empty cur); [exact Hout|].
  rewrite lines_app. apply Forall_app. split; [exact Hout | simpl; now repeat constructor].
Qed.

End LoopClosure.

(** The lines of a reply are made of the bytes of the reply and of the
    spaces that join its pieces. *)
Lemma outgoing_bytes (p : ascii -> bool) (maxLength : Z) (target response : string) :
  p " "%char = true -> allBytes p response = true ->
  Forall (fun line => allBytes p line = true) (lines (outgoing maxLength target response)).
Proof.
  intros Hspace Hresponse.
  apply (outgoing_Joined maxLength target (fun s => allBytes p s = true)).
  - reflexivity.
  - intros a b Ha Hb. unfold extend. destruct (is_empty a); rewrite !allBytes_append.
    + now rewrite Ha, Hb.
    + simpl. now rewrite Ha, Hb, Hspace.
  - exact Hresponse.
  - pose proof (Split_bytes p Re.sentenceEnd response Hresponse) as Hsplit.
    rewrite Forall_forall in *. intros s Hs. split; [now apply Hsplit|].
    apply Fields_bytes. now apply Hsplit.
Qed.

End Bytes.

(** ** Cleaning a reply *)

Section CleanReply.

#[local] Open Scope string_scope.

Import More.

(** [\s+] at the head of a text takes the whole run of white space there. *)
Lemma matchAt_spaces (s : string) :
  Re.matchAt Re.spaces s
  = match s with
    | EmptyString => None
    | String c s' => if Re.isSpace c then Some (Spec.dropWhile Re.isSpace s') else None
    end.
Proof.
  unfold Re.matchAt, Re.spaces, Re.Plus. cbn [Re.run].
  destruct s as [|c s]; [reflexivity|]. destruct (Re.isSpace c); [|reflexivity].
  now apply starLoop_class.
Qed.

Lemma length_dropWhile (p : ascii -> bool) (s : string) :
  (String.length (Spec.dropWhile p s) <= String.length s)%nat.
Proof. induction s as [|c s IH]; simpl; [lia|]. destruct (p c); simpl; lia. Qed.

Lemma allBytes_dropWhile (q p : ascii -> bool) (s : string) :
  allBytes q s = true -> allBytes q (Spec.dropWhile p s) = true.
Proof.
  induction s as [|c s IH]; simpl; [reflexivity|]. intros [Hc Hs]%andb_prop.
  destruct (p c); [now apply IH | simpl; now rewrite Hc, Hs].
Qed.

(** Before the first run of white space there is none, and a run found
    leaves less text. *)
Lemma search_spaces (s : string) :
  match Re.search Re.spaces s with
  | Some (gap, rest) =>
    allBytes ink gap = true /\ (String.length rest < String.length s)%nat
  | None => allBytes ink s = true
  end.
Proof.
  induction s as [|c s IH]; cbn [Re.search]; rewrite matchAt_spaces; [reflexivity|].
  destruct (Re.isSpace c) eqn:Hc.
  - split; [reflexivity|]. pose proof (length_dropWhile Re.isSpace s). simpl. lia.
  - destruct (Re.search Re.spaces s) as [[gap rest]|].
    + destruct IH as [Hgap Hlen]. split; [|simpl; lia].
      simpl. unfold ink at 1. now rewrite Hc.
    + simpl. unfold ink at 1. now rewrite Hc.
Qed.

Lemma scan_spaces :
  forall fuel s, (String.length s <= fuel)%nat ->
    Forall (fun piece => allBytes ink piece = true)
           (let (gaps, tail) := Re.scan fuel Re.spaces s in gaps ++ [tail])%list.
Proof.
  induction fuel as [|fuel IH]; intros s Hlen; cbn [Re.scan].
  - destruct s; [simpl; now repeat constructor | simpl in Hlen; lia].
  - pose proof (search_spaces s) as Hsearch.
    destruct (Re.search Re.spaces s) as [[gap rest]|]; [|simpl; now repeat constructor].
    destruct Hsearch as [Hgap Hshort].
    apply Nat.ltb_lt in Hshort as Hshortb. rewrite Hshortb.
    specialize (IH rest ltac:(lia)). destruct (Re.scan fuel Re.spaces rest) as [gaps tail].
    simpl. now constructor.
Qed.

Lemma ink_spaceOrInk (s : string) : allBytes ink s = true -> allBytes spaceOrInk s = true.
Proof.
  induction s as [|c s IH]; simpl; [reflexivity|]. intros [Hc Hs]%andb_prop.
  unfold spaceOrInk at 1. unfold ink in Hc. now rewrite Hc, IH.
Qed.

Lemma concat_spaceOrInk (pieces : list string) :
  Forall (fun piece => allBytes ink piece = true) pieces ->
  allBytes spaceOrInk (String.concat " " pieces) = true.
Proof.
  induction pieces as [|piece pieces IH]; intro Hpieces; [reflexivity|].
  inversion Hpieces as [|? ? Hpiece Hrest]; subst.
  destruct pieces as [|next pieces]; [now apply ink_spaceOrInk|].
  change (String.concat " " (piece :: next :: pieces))
    with (piece ++ " " ++ String.concat " " (next :: pieces)).
  rewrite !allBytes_append, ink_spaceOrInk, IH by assumption. reflexivity.
Qed.

(** Collapsing leaves no white space of [\s] but single byte spaces. *)
Lemma collapse_spaceOrInk (s : string) :
  allBytes spaceOrInk (Re.ReplaceAllString Re.spaces s " ") = true.
Proof.
  unfold Re.ReplaceAllString.
  pose proof (scan_spaces (String.length s) s (Nat.le_refl _)) as Hscan.
  destruct (Re.scan (String.length s) Re.spaces s) as [gaps tail].
  now apply concat_spaceOrInk.
Qed.

Lemma Trimmed_allBytes (p : ascii -> bool) (s t : string) :
  Spec.Trimmed s t -> allBytes p s = true -> allBytes p t = true.
Proof.
  intros [before [after [-> _]]]. rewrite !allBytes_append.
  intros [_ [Ht _]%andb_prop]%andb_prop. exact Ht.
Qed.

Lemma cleanAIResponse_spaceOrInk (raw : string) :
  allBytes spaceOrInk (cleanAIResponse raw) = true.
Proof.
  unfold cleanAIResponse.
  apply (Trimmed_allBytes _ _ _ (TrimSpace_Trimmed _)). apply collapse_spaceOrInk.
Qed.

(** X13. Whatever the text service returns, the cleaned reply holds no tab,
    line feed, form feed or carriage return: the only white space of [\s]
    left in it is the space; and it neither opens nor ends with a white-space
    rune. *)
Theorem cleaned_reply_is_one_line :
  forall raw : string,
    allBytes spaceOrInk (cleanAIResponse raw) = true /\
    spaceWidth (cleanAIResponse raw) = 0%nat /\
    (forall pre v : string, cleanAIResponse raw = pre ++ v -> ~ Spec.SpaceRune v).
Proof.
  intro raw. split; [apply cleanAIResponse_spaceOrInk|].
  unfold cleanAIResponse.
  destruct (TrimSpace_Trimmed
              (Re.ReplaceAllString Re.spaces
                 (Re.ReplaceAllString Re.tag
                    (trimFirstPrefix ["Assistant: "; "Bot: "; "AI: "] raw) "") " "))
    as [before [after [_ [_ [_ [Hstart Hend]]]]]].
  split; [exact Hstart | exact Hend].
Qed.

End CleanReply.

(** ** What handling a message can do *)

Section Handler.

#[local] Open Scope string_scope.

Import More.

Context `{Unicode}.

(** The three ways [handleMessage] ends: the message is ignored; the
    request fails; the reply is appended and sent. *)
Lemma handleMessage_cases (e : Event) (bot : IRCBot) :
  let cfg := config bot in
  let bot1 := addToContext bot
                (Spec.userEntry (EvNick e) (cleanMessage cfg (EvMessage e))) in
  let bot2 := emit bot1 [Get (Spec.promptURL bot1)] in
  handleMessage e bot = (tt, bot) \/
  handleMessage e bot = (tt, bot2) \/
  exists body : string,
    handleMessage e bot
    = (tt, emit (addToContext bot2
                   {| Role := "assistant"; Content := cleanAIResponse (TrimSpace body) |})
                (outgoing 400 (replyTarget cfg e) (cleanAIResponse (TrimSpace body)))).
Proof.
  intros cfg bot1 bot2. unfold handleMessage, bind, gets, ret. fold cfg.
  destruct (EvNick e =? Nick cfg); [now left|].
  destruct (negb _); [now left|].
  rewrite getAIResponse_steps. fold cfg bot1 bot2. cbv zeta.
  destruct (client bot _) as [cause|code body readErr]; [right; now left|].
  destruct (negb (code =? 200)%Z); [right; now left|].
  destruct readErr; [right; now left|].
  right. right. exists body. reflexivity.
Qed.

Lemma outgoing_onConnection (m : Z) (t response : string) :
  Forall onConnection (outgoing m t response) /\
  (forall t' c, In (Privmsg t' c) (outgoing m t response) -> t' = t).
Proof.
  destruct (outgoing_paced m t response) as [cs [tail [-> Htail]]].
  assert (Hpaced : Forall onConnection (paced t cs) /\
                   forall t' c, In (Privmsg t' c) (paced t cs) -> t' = t).
  { unfold paced. induction cs as [|x cs [IH1 IH2]]; simpl.
    - split; [constructor | tauto].
    - split; [now repeat constructor|].
      intros t' c [Heq|[Heq|Hin]]; [congruence | discriminate | now apply IH2 in Hin]. }
  destruct Hpaced as [Hcalls Htargets]. split.
  - apply Forall_app. split; [exact Hcalls|].
    destruct Htail as [-> | [c ->]]; now repeat constructor.
  - intros t' c Hin. apply in_app_or in Hin as [Hin|Hin]; [now apply Htargets in Hin|].
    destruct Htail as [-> | [c' ->]]; [destruct Hin|].
    destruct Hin as [Heq|[]]. congruence.
Qed.

(** X14. Handling one message makes at most one request to the text
    service, and the request comes before anything is sent: the calls added
    to the trace are none, or one request followed by calls on the IRC
    connection only, every line of which is addressed to the sender when the
    message came to the bot alone and to the target of the message
    otherwise. *)
Theorem at_most_one_request_then_lines :
  forall (e : Event) (bot : IRCBot),
    exists new : list Effect,
      trace (snd (handleMessage e bot)) = (trace bot ++ new)%list /\
      (new = [] \/
       exists (url : string) (sends : list Effect),
         new = Get url :: sends /\ Forall onConnection sends /\
         forall t c, In (Privmsg t c) sends -> t = replyTarget (config bot) e).
Proof.
  intros e bot.
  destruct (handleMessage_cases e bot) as [Hcase|[Hcase|[body Hcase]]]; rewrite Hcase.
  - exists []. split; [simpl; now rewrite app_nil_r | now left].
  - eexists. split; [reflexivity|]. right. eexists; exists []. split; [reflexivity|].
    split; [constructor | intros t c []].
  - eexists. split; [cbn [snd trace emit addToContext set_context];
                     rewrite <- app_assoc; reflexivity|].
    right. eexists; eexists. split; [reflexivity|]. apply outgoing_onConnection.
Qed.

(** X15. No line that [handleMessage] sends holds a tab, a line feed, a
    form feed or a carriage return, whatever the text service returned: the
    lines added to the trace are made of the bytes of the cleaned reply and
    of spaces. *)
Theorem sent_lines_hold_no_line_break :
  forall (e : Event) (bot : IRCBot),
    exists new : list string,
      lines (trace (snd (handleMessage e bot))) = (lines (trace bot) ++ new)%list /\
      Forall (fun line => allBytes spaceOrInk line = true) new.
Proof.
  intros e bot.
  destruct (handleMessage_cases e bot) as [Hcase|[Hcase|[body Hcase]]]; rewrite Hcase.
  - exists []. split; [now rewrite app_nil_r | constructor].
  - exists []. split; [|constructor].
    cbn [snd trace emit]. rewrite lines_app. reflexivity.
  - exists (lines (outgoing 400 (replyTarget (config bot) e) (cleanAIResponse (TrimSpace body)))).
    split.
    + cbn [snd trace emit addToContext set_context]. rewrite !lines_app. simpl.
      now rewrite app_nil_r.
    + apply outgoing_bytes; [reflexivity | apply cleanAIResponse_spaceOrInk].
Qed.


Lemma handleMessage_frame (e : Event) (bot : IRCBot) :
  config (snd (handleMessage e bot)) = config bot /\
  client (snd (handleMessage e bot)) = client bot.
Proof.
  destruct (handleMessage_cases e bot) as [Hcase|[Hcase|[body Hcase]]];
    rewrite Hcase; now split.
Qed.

Lemma handleMessage_window (e : Event) (bot : IRCBot) :
  (List.length (context bot) <= 19)%nat ->
  (List.length (context (snd (handleMessage e bot))) <= 19)%nat /\
  forall x, hd_error (context bot) = Some x ->
            hd_error (context (snd (handleMessage e bot))) = Some x.
Proof.
  intro Hlen.
  destruct (handleMessage_cases e bot) as [Hcase|[Hcase|[body Hcase]]]; rewrite Hcase;
    cbn [snd context emit addToContext set_context].
  - now split.
  - split; [now apply appendBounded_length | intros x Hx; now apply appendBounded_head].
  - split.
    + apply appendBounded_length. now apply appendBounded_length.
    + intros x Hx. apply appendBounded_head. now apply appendBounded_head.
Qed.

Lemma handleAll_snoc (es : list Event) (e : Event) (bot : IRCBot) :
  handleAll (es ++ [e]) bot = snd (handleMessage e (handleAll es bot)).
Proof. unfold handleAll. now rewrite fold_left_app. Qed.

(** X17. However many messages a new bot handles, and whatever they are and
    the text service answers, the window holds at most 19 entries, all with
    one of the three roles, the configuration is the one the bot was created
    with, and when the persona is not empty the persona entry is at index
    0. *)
Theorem handling_keeps_window_bounded :
  forall (cfg : Config) (http : string -> HttpReply) (es : list Event),
    let bot := handleAll es (NewIRCBot cfg http) in
    (List.length (context bot) <= 19)%nat /\
    Spec.ValidWindow (context bot) /\
    config bot = cfg /\
    (Persona cfg <> "" ->
     hd_error (context bot) = Some {| Role := "system"; Content := Persona cfg |}).
Proof.
  intros cfg http es. induction es as [|e es IH] using rev_ind.
  - cbv zeta. change (handleAll [] (NewIRCBot cfg http)) with (NewIRCBot cfg http).
    split; [pose proof (NewIRCBot_length cfg http); lia|].
    split; [apply NewIRCBot_valid|].
    split; [unfold NewIRCBot; now destruct (is_empty (Persona cfg))|].
    intro Hpersona. unfold NewIRCBot. now rewrite (is_empty_false _ Hpersona).
  - cbv zeta in *. rewrite handleAll_snoc.
    destruct IH as [Hlen [Hvalid [Hcfg Hhead]]].
    destruct (handleMessage_window e _ Hlen) as [Hlen' Hhead'].
    split; [exact Hlen'|]. split; [now apply handleMessage_valid|].
    split; [now rewrite (proj1 (handleMessage_frame e _))|].
    intro Hpersona. apply Hhead'. now apply Hhead.
Qed.

End Handler.


Lemma handling_keeps_window_bounded_witness :
  hd_error (context (More.handleAll (H := Sample.plainUnicode)
                       [mkEvent "alice" "Steve" ["hello"]; mkEvent "bob" "#lobby" ["Steve: hi"]]
                       (NewIRCBot (Sample.steve "P") Sample.answering)))
  = Some {| Role := "system"; Content := "P" |}.
Proof.
  apply (handling_keeps_window_bounded (H := Sample.plainUnicode)
           (Sample.steve "P") Sample.answering
           [mkEvent "alice" "Steve" ["hello"]; mkEvent "bob" "#lobby" ["Steve: hi"]]).
  discriminate.
Defined.

(** ** The words of a long reply *)

Section WordsKept.

#[local] Open Scope string_scope.

Import More.

(** A space that follows does not change whether a white-space rune opens
    a text. *)
Lemma spaceWidth_before_space (x b : string) :
  x <> "" -> spaceWidth (x ++ String " " b) = spaceWidth x.
Proof.
  intro Hx. destruct x as [|c0 [|c1 [|c2 x]]]; [congruence | | | reflexivity];
    unfold spaceWidth; simpl append; cbv beta iota.
  - destruct (asciiSpace c0); [reflexivity|].
    change (code " ") with 32%N. simpl. rewrite andb_false_r.
    destruct b; [reflexivity|]. simpl. now rewrite !andb_false_r.
  - destruct (asciiSpace c0); [reflexivity|].
    destruct ((code c0 =? 194)%N && ((code c1 =? 133)%N || (code c1 =? 160)%N));
      [reflexivity|].
    change (code " ") with 32%N. simpl. now rewrite !andb_false_r.
Qed.

#[local] Arguments spaceWidth : simpl never.

Lemma spaceWidth_length (c : ascii) (s : string) (n : nat) :
  spaceWidth (String c s) = S n -> (n <= String.length s)%nat.
Proof.
  intro Hw. destruct (spaceWidth_head c s n Hw) as [v [_ [Hsplit Hlen]]].
  apply (f_equal String.length) in Hsplit. rewrite length_append, length_drop in Hsplit.
  simpl in Hsplit. lia.
Qed.

(** Reading the fields of two texts joined by a space. *)
Lemma fieldsFrom_join (b : string) (a : string) :
  forall skip cur, (skip <= String.length a)%nat ->
    fieldsFrom skip cur (a ++ String " " b) = (fieldsFrom skip cur a ++ Fields b)%list.
Proof.
  induction a as [|c a IH]; intros skip cur Hskip.
  - assert (skip = 0%nat) as -> by (simpl in Hskip; lia). reflexivity.
  - simpl append. cbn [fieldsFrom]. destruct skip as [|n].
    + change (String c (a ++ String " " b)) with (String c a ++ String " " b).
      rewrite spaceWidth_before_space by discriminate.
      destruct (spaceWidth (String c a)) as [|n] eqn:Hw.
      * apply IH. lia.
      * rewrite IH by now apply spaceWidth_length with c. now rewrite app_assoc.
    + apply IH. simpl in Hskip. lia.
Qed.

Lemma Fields_extend (cur piece : string) :
  Fields (extend cur piece) = (Fields cur ++ Fields piece)%list.
Proof.
  unfold extend. destruct cur as [|c cur]; [reflexivity|].
  cbn [is_empty]. rewrite append_assoc.
  change (" " ++ piece) with (String " " piece).
  apply fieldsFrom_join. lia.
Qed.

(** A word read again is that word. *)
Lemma fieldsFrom_word (w : string) :
  forall cur, Spec.BlankFree w -> cur ++ w <> "" -> fieldsFrom 0 cur w = [cur ++ w].
Proof.
  induction w as [|c w IH]; intros cur Hblank Hne.
  - rewrite append_nil_r in *. simpl. unfold flushField.
    destruct cur; [congruence | reflexivity].
  - cbn [fieldsFrom]. rewrite (Hblank 0%nat : spaceWidth (String c w) = 0%nat).
    rewrite IH.
    + now rewrite snoc_append.
    + intro n. exact (Hblank (S n)).
    + rewrite snoc_append. destruct cur; discriminate.
Qed.

Lemma Fields_of_word (s w : string) : In w (Fields s) -> Fields w = [w].
Proof.
  intro Hw. destruct (Fields_words s w Hw) as [Hne Hblank].
  now apply (fieldsFrom_word w "").
Qed.

Lemma wordsOf_flush (t cur : string) (out : list Effect) (next : string) :
  wordsOf (next, flush t cur out) = (wordsOf (cur, out) ++ Fields next)%list.
Proof.
  unfold wordsOf. simpl. rewrite lines_flush, flat_map_app.
  destruct cur as [|c cur]; simpl; now rewrite ?app_nil_r.
Qed.

Lemma wordStep_words (m : Z) (t : string) (st : string * list Effect) (w : string) :
  Fields w = [w] -> wordsOf (wordStep m t st w) = (wordsOf st ++ [w])%list.
Proof.
  destruct st as [cur out]. intro Hw. unfold wordStep.
  destruct (len cur + len w + 1 <=? m)%Z.
  - unfold wordsOf. simpl. now rewrite Fields_extend, Hw, app_assoc.
  - now rewrite wordsOf_flush, Hw.
Qed.

Lemma words_words (m : Z) (t : string) (ws : list string) (st : string * list Effect) :
  Forall (fun w => Fields w = [w]) ws ->
  wordsOf (fold_left (wordStep m t) ws st) = (wordsOf st ++ ws)%list.
Proof.
  revert st. induction ws as [|w ws IH]; intros st Hws; simpl; [now rewrite app_nil_r|].
  inversion Hws; subst. rewrite IH by assumption.
  rewrite wordStep_words by assumption. now rewrite <- app_assoc.
Qed.

Lemma sentenceStep_words (m : Z) (t : string) (st : string * list Effect) (s : string) :
  wordsOf (sentenceStep m t st s) = (wordsOf st ++ Fields s)%list.
Proof.
  destruct st as [cur out]. unfold sentenceStep.
  destruct (len cur + len s + 1 <=? m)%Z.
  - unfold wordsOf. simpl. now rewrite Fields_extend, app_assoc.
  - destruct (len s >? m)%Z; [|apply wordsOf_flush].
    rewrite words_words.
    + rewrite wordsOf_flush. change (Fields "") with (@nil string). now rewrite app_nil_r.
    + apply Forall_forall. intros w Hw. now apply Fields_of_word with s.
Qed.

Lemma sentences_words (m : Z) (t : string) (ss : list string) (st : string * list Effect) :
  wordsOf (fold_left (sentenceStep m t) ss st) = (wordsOf st ++ flat_map Fields ss)%list.
Proof.
  revert st. induction ss as [|s ss IH]; intro st; simpl; [now rewrite app_nil_r|].
  now rewrite IH, sentenceStep_words, <- app_assoc.
Qed.

(** X18. In a reply longer than a line, no word is lost, repeated, cut or
    moved: the words of the lines sent, read line after line, are the words
    of the sentences the reply was split into, in their order. *)
Theorem long_reply_keeps_every_word :
  forall (response : string) (maxLength : Z),
    (maxLength < len response)%Z ->
    flat_map Fields (segment response maxLength)
    = flat_map Fields (Re.Split Re.sentenceEnd response).
Proof.
  intros response maxLength Hlong. unfold segment, outgoing.
  replace (len response <=? maxLength)%Z with false by (symmetry; apply Z.leb_gt; lia).
  pose proof (sentences_words maxLength "" (Re.Split Re.sentenceEnd response) ("", []))
    as Hwords.
  destruct (fold_left (sentenceStep maxLength "") _ ("", [])) as [cur out].
  unfold wordsOf in Hwords. simpl in Hwords. rewrite <- Hwords.
  destruct cur as [|c cur]; simpl is_empty; cbv iota.
  - change (Fields "") with (@nil string). now rewrite app_nil_r.
  - rewrite lines_app, flat_map_app. simpl. now rewrite app_nil_r.
Qed.

Lemma long_reply_keeps_every_word_witness :
  flat_map Fields (segment Sample.longWord 10)
  = ["aaaa"; "bbbb"; "cccc"; "dddddddddddddd"; "ee"; "ff"].
Proof.
  rewrite (long_reply_keeps_every_word Sample.longWord 10) by (vm_compute; reflexivity).
  reflexivity.
Defined.

End WordsKept.

(** ** What splitting drops *)

Section Splitting.

#[local] Open Scope string_scope.

Import More.

Lemma starLoop_sound (r : Re.regex) (step : string -> (string -> option string) -> option string) :
  (forall s k res, step s k = Some res ->
     exists m s', s = m ++ s' /\ Matches r m /\ k s' = Some res) ->
  forall fuel s k res,
    Re.starLoop step k fuel s = Some res ->
    exists m s', s = m ++ s' /\ Matches (Re.Star r) m /\ k s' = Some res.
Proof.
  intros Hstep. induction fuel as [|fuel IH]; intros s k res Hrun; simpl in Hrun.
  - exists "", s. repeat split; [constructor | exact Hrun].
  - destruct (step s _) as [rest|] eqn:Hround.
    + injection Hrun as ->. apply Hstep in Hround as [m1 [s1 [-> [Hm1 Hcont]]]].
      destruct (String.length s1 <? String.length (m1 ++ s1))%nat; [|discriminate].
      apply IH in Hcont as [m2 [s2 [-> [Hm2 Hk]]]].
      exists (m1 ++ m2), s2. split; [now rewrite append_assoc|].
      split; [now constructor | exact Hk].
    + exists "", s. repeat split; [constructor | exact Hrun].
Qed.

(** The search finds matches only: what it steps over is a text of the
    pattern. *)
Lemma run_sound (r : Re.regex) :
  forall s k res, Re.run r s k = Some res ->
    exists m s', s = m ++ s' /\ Matches r m /\ k s' = Some res.
Proof.
  induction r as [|p|r1 IH1 r2 IH2|r1 IH1 r2 IH2|r1 IH1]; intros s k res Hrun; cbn [Re.run] in Hrun.
  - exists "", s. repeat split; [constructor | exact Hrun].
  - destruct s as [|c s]; [discriminate|]. destruct (p c) eqn:Hc; [|discriminate].
    exists (String c ""), s. repeat split; [now constructor | exact Hrun].
  - apply IH1 in Hrun as [m1 [s1 [-> [Hm1 Hrun]]]].
    apply IH2 in Hrun as [m2 [s2 [-> [Hm2 Hk]]]].
    exists (m1 ++ m2), s2. split; [now rewrite append_assoc|].
    split; [now constructor | exact Hk].
  - destruct (Re.run r1 s k) as [rest|] eqn:Hfirst.
    + injection Hrun as ->. apply IH1 in Hfirst as [m [s' [-> [Hm Hk]]]].
      exists m, s'. repeat split; [now apply Matches_alt_l | exact Hk].
    + apply IH2 in Hrun as [m [s' [-> [Hm Hk]]]].
      exists m, s'. repeat split; [now apply Matches_alt_r | exact Hk].
  - now apply (starLoop_sound r1 (Re.run r1) IH1) in Hrun.
Qed.

Lemma matchAt_sound (r : Re.regex) (s rest : string) :
  Re.matchAt r s = Some rest -> exists m, s = m ++ rest /\ Matches r m.
Proof.
  intro Hmatch. apply run_sound in Hmatch as [m [s' [-> [Hm Heq]]]].
  injection Heq as ->. now exists m.
Qed.

Lemma search_sound (r : Re.regex) (s gap rest : string) :
  Re.search r s = Some (gap, rest) -> exists m, s = gap ++ m ++ rest /\ Matches r m.
Proof.
  revert gap. induction s as [|c s IH]; intros gap Hsearch; cbn [Re.search] in Hsearch.
  - destruct (Re.matchAt r "") as [rest0|] eqn:Hhere; [|discriminate].
    injection Hsearch as <- <-. now apply matchAt_sound.
  - destruct (Re.matchAt r (String c s)) as [rest0|] eqn:Hhere.
    + injection Hsearch as <- <-. now apply matchAt_sound.
    + destruct (Re.search r s) as [[gap' rest']|]; [|discriminate].
      injection Hsearch as <- <-. destruct (IH gap' eq_refl) as [m [-> Hm]].
      now exists m.
Qed.

(** The text is its pieces with the matches put back between them. *)
Lemma scan_weave (r : Re.regex) :
  forall fuel s,
    exists seps : list string,
      (let (gaps, tail) := Re.scan fuel r s in
       weave (gaps ++ [tail]) seps = s /\ List.length seps = List.length gaps) /\
      Forall (Matches r) seps.
Proof.
  induction fuel as [|fuel IH]; intro s; cbn [Re.scan].
  - exists []. simpl. now rewrite append_nil_r.
  - destruct (Re.search r s) as [[gap rest]|] eqn:Hsearch;
      [|exists []; simpl; now rewrite append_nil_r].
    destruct (String.length rest <? String.length s)%nat;
      [|exists []; simpl; now rewrite append_nil_r].
    destruct (search_sound r s gap rest Hsearch) as [m [-> Hm]].
    destruct (IH rest) as [seps [Hrest Hseps]].
    destruct (Re.scan fuel r rest) as [gaps tail]. destruct Hrest as [Hweave Hlen].
    exists (m :: seps). split; [|now constructor].
    simpl. now rewrite Hweave, Hlen.
Qed.

Lemma Matches_class_star (p : ascii -> bool) (m : string) :
  Matches (Re.Star (Re.Byte p)) m -> allBytes p m = true.
Proof.
  intro Hm. remember (Re.Star (Re.Byte p)) as r eqn:Hr.
  induction Hm as [| | | | | r0 | r0 a b Ha _ Hb IH]; try discriminate; [reflexivity|].
  injection Hr as ->. rewrite allBytes_append, IH by reflexivity.
  inversion Ha as [|p' c Hc| | | | |]; subst. simpl. now rewrite Hc.
Qed.

Lemma Matches_class_plus (p : ascii -> bool) (m : string) :
  Matches (Re.Plus (Re.Byte p)) m -> m <> "" /\ allBytes p m = true.
Proof.
  unfold Re.Plus. intro Hm. inversion Hm as [| |r1 r2 a b Ha Hb| | | |]; subst.
  inversion Ha as [|p' c Hc| | | | |]; subst.
  apply Matches_class_star in Hb. simpl. split; [discriminate | now rewrite Hc, Hb].
Qed.

Lemma allBytes_weaken (p q : ascii -> bool) (s : string) :
  (forall c, p c = true -> q c = true) -> allBytes p s = true -> allBytes q s = true.
Proof.
  intro Hpq. induction s as [|c s IH]; simpl; [reflexivity|].
  intros [Hc Hs]%andb_prop. now rewrite (Hpq c Hc), IH.
Qed.

Lemma Matches_sentenceEnd (m : string) :
  Matches Re.sentenceEnd m -> m <> "" /\ allBytes terminatorOrSpace m = true.
Proof.
  unfold Re.sentenceEnd. intro Hm. inversion Hm as [| |r1 r2 a b Ha Hb| | | |]; subst.
  apply Matches_class_plus in Ha as [Hne Ha]. apply Matches_class_plus in Hb as [_ Hb].
  split; [destruct a; [congruence | discriminate]|].
  rewrite allBytes_append. apply andb_true_intro. split.
  - apply (allBytes_weaken (Re.oneOf ".!?")); [|exact Ha].
    intros c Hc. unfold terminatorOrSpace. now rewrite Hc.
  - apply (allBytes_weaken Re.isSpace); [|exact Hb].
    intros c Hc. unfold terminatorOrSpace. rewrite Hc. apply orb_true_r.
Qed.

(** X19. The sentences that [sendResponse] splits a reply into are the
    reply with some runs of bytes taken out between them, and every run taken
    out is made of sentence terminators and white space only: putting the
    runs back between the sentences gives the reply. *)
Theorem splitting_drops_terminators_and_spaces_only :
  forall response : string,
    exists seps : list string,
      weave (Re.Split Re.sentenceEnd response) seps = response /\
      S (List.length seps) = List.length (Re.Split Re.sentenceEnd response) /\
      Forall (fun sep => sep <> "" /\ allBytes terminatorOrSpace sep = true) seps.
Proof.
  intro response. unfold Re.Split.
  destruct (scan_weave Re.sentenceEnd (String.length response) response) as [seps [Hscan Hseps]].
  destruct (Re.scan (String.length response) Re.sentenceEnd response) as [gaps tail].
  destruct Hscan as [Hweave Hlen]. exists seps. split; [exact Hweave|].
  split; [rewrite length_app; simpl; lia|].
  apply Forall_forall. intros sep Hsep. rewrite Forall_forall in Hseps.
  now apply Matches_sentenceEnd, Hseps.
Qed.

End Splitting.

(** ** Tags *)

Section Tags.

#[local] Open Scope string_scope.

Import More.

Lemma starLoop_tag :
  forall fuel s, (String.length s <= fuel)%nat ->
    Re.starLoop (Re.run (Re.Byte (fun c => negb (Ascii.eqb c ">"))))
                (fun s' => Re.run (Re.Byte (Ascii.eqb ">")) s' Some) fuel s
    = afterGt s.
Proof.
  induction fuel as [|fuel IH]; intros s Hlen.
  - destruct s; [reflexivity | simpl in Hlen; lia].
  - destruct s as [|c s]; [reflexivity|].
    cbn [Re.starLoop Re.run afterGt]. rewrite (Ascii.eqb_sym ">" c).
    destruct (Ascii.eqb c ">"); [reflexivity|]. cbn [negb].
    replace (String.length s <? String.length (String c s))%nat with true
      by (symmetry; apply Nat.ltb_lt; simpl; lia).
    rewrite IH by (simpl in Hlen; lia). now destruct (afterGt s).
Qed.

(** [<[^>]*>] at the head of a text: a [<], and everything up to the first
    [>] after it. *)
Lemma matchAt_tag (s : string) :
  Re.matchAt Re.tag s
  = match s with
    | EmptyString => None
    | String c s' => if Ascii.eqb "<" c then afterGt s' else None
    end.
Proof.
  unfold Re.matchAt, Re.tag. cbn [Re.run]. destruct s as [|c s]; [reflexivity|].
  destruct (Ascii.eqb "<" c); [|reflexivity]. now apply starLoop_tag.
Qed.

Lemma afterGt_hasGt (s : string) :
  match afterGt s with
  | Some rest => hasGt s = true /\ (String.length rest < String.length s)%nat
  | None => hasGt s = false
  end.
Proof.
  induction s as [|c s IH]; simpl; [reflexivity|].
  destruct (Ascii.eqb c ">"); simpl; [split; [reflexivity | lia]|].
  destruct (afterGt s); [|exact IH]. destruct IH. split; [assumption | lia].
Qed.

Lemma search_tag (s : string) :
  match Re.search Re.tag s with
  | Some (gap, rest) =>
    allBytes notLt gap = true /\
    (String.length rest < String.length s)%nat /\ hasGt s = true
  | None => hasTag s = false
  end.
Proof.
  induction s as [|c s IH]; cbn [Re.search]; rewrite matchAt_tag; [reflexivity|].
  pose proof (afterGt_hasGt s) as Hgt. rewrite (Ascii.eqb_sym "<" c).
  destruct (Ascii.eqb c "<") eqn:Hc.
  - destruct (afterGt s) as [rest|].
    + destruct Hgt as [Hgt Hlen]. repeat split; [simpl; lia|].
      simpl. rewrite Hgt. apply orb_true_r.
    + destruct (Re.search Re.tag s) as [[gap rest]|].
      * destruct IH as [_ [_ Hyes]]. congruence.
      * simpl. now rewrite Hc, Hgt, IH.
  - destruct (Re.search Re.tag s) as [[gap rest]|].
    + destruct IH as [Hgap [Hlen Hyes]]. repeat split.
      * simpl. unfold notLt at 1. now rewrite Hc.
      * simpl. lia.
      * simpl. rewrite Hyes. apply orb_true_r.
    + simpl. now rewrite Hc, IH.
Qed.

Lemma hasTag_notLt_append (a b : string) :
  allBytes notLt a = true -> hasTag (a ++ b) = hasTag b.
Proof.
  induction a as [|c a IH]; simpl; [reflexivity|]. intros [Hc Ha]%andb_prop.
  unfold notLt in Hc. apply negb_true_iff in Hc. rewrite Hc. simpl. now apply IH.
Qed.

Lemma scan_tag :
  forall fuel s, (String.length s <= fuel)%nat ->
    hasTag (let (gaps, tail) := Re.scan fuel Re.tag s in String.concat "" (gaps ++ [tail]))
    = false.
Proof.
  induction fuel as [|fuel IH]; intros s Hlen; cbn [Re.scan].
  - destruct s; [reflexivity | simpl in Hlen; lia].
  - pose proof (search_tag s) as Hsearch.
    destruct (Re.search Re.tag s) as [[gap rest]|]; [|exact Hsearch].
    destruct Hsearch as [Hgap [Hshort _]].
    apply Nat.ltb_lt in Hshort as Hshortb. rewrite Hshortb.
    specialize (IH rest ltac:(lia)). destruct (Re.scan fuel Re.tag rest) as [gaps tail].
    rewrite <- app_comm_cons, concat_cons by (destruct gaps; discriminate).
    simpl append. now rewrite hasTag_notLt_append.
Qed.

Lemma hasGt_append (a b : string) : hasGt (a ++ b) = hasGt a || hasGt b.
Proof. induction a as [|c a IH]; simpl; [reflexivity | now rewrite IH, orb_assoc]. Qed.

(** A part of a text without tags has no tag. *)
Lemma hasTag_append_false (a b : string) :
  hasTag (a ++ b) = false -> hasTag a = false /\ hasTag b = false.
Proof.
  induction a as [|c a IH]; simpl; [now split|].
  intros [Hhead Htail]%orb_false_elim. destruct (IH Htail) as [Ha Hb].
  split; [|exact Hb]. rewrite Ha, orb_false_r.
  rewrite hasGt_append in Hhead. destruct (Ascii.eqb c "<"); [|reflexivity].
  simpl in *. now apply orb_false_elim in Hhead as [Hgt _].
Qed.

Lemma hasGt_angles (s : string) : hasGt (angles s) = hasGt s.
Proof.
  induction s as [|c s IH]; simpl; [reflexivity|].
  destruct (Ascii.eqb c "<") eqn:Hlt; destruct (Ascii.eqb c ">") eqn:Hgt; simpl;
    rewrite ?Hgt, IH; reflexivity.
Qed.

(** Whether a text holds a tag is a matter of its angle brackets alone. *)
Lemma hasTag_angles (s : string) : hasTag (angles s) = hasTag s.
Proof.
  induction s as [|c s IH]; simpl; [reflexivity|].
  destruct (Ascii.eqb c "<") eqn:Hlt; destruct (Ascii.eqb c ">") eqn:Hgt; simpl;
    rewrite ?Hlt, ?hasGt_angles, IH; reflexivity.
Qed.

Lemma angles_append (a b : string) : angles (a ++ b) = angles a ++ angles b.
Proof.
  induction a as [|c a IH]; simpl; [reflexivity|].
  destruct (Ascii.eqb c "<" || Ascii.eqb c ">"); simpl; now rewrite IH.
Qed.

Lemma angles_spaces (s : string) : allBytes Re.isSpace s = true -> angles s = "".
Proof.
  induction s as [|c s IH]; simpl; [reflexivity|]. intros [Hc Hs]%andb_prop.
  destruct (Ascii.eqb c "<") eqn:Hlt; [apply Ascii.eqb_eq in Hlt; subst; discriminate|].
  destruct (Ascii.eqb c ">") eqn:Hgt; [apply Ascii.eqb_eq in Hgt; subst; discriminate|].
  now apply IH.
Qed.

Lemma angles_weave (pieces seps : list string) :
  Forall (fun sep => angles sep = "") seps ->
  angles (weave pieces seps) = String.concat "" (map angles pieces).
Proof.
  revert seps. induction pieces as [|piece pieces IH]; intros seps Hseps; [reflexivity|].
  assert (Hcons : forall x xs, String.concat "" (x :: xs) = x ++ String.concat "" xs)
    by (intros x [|y xs]; simpl; [now rewrite append_nil_r | reflexivity]).
  cbn [map]. rewrite Hcons. destruct seps as [|sep seps]; cbn [weave].
  - now rewrite angles_append, IH.
  - inversion Hseps as [|? ? Hsep Hrest]; subst.
    now rewrite !angles_append, Hsep, IH.
Qed.

Lemma angles_concat_space (pieces : list string) :
  angles (String.concat " " pieces) = String.concat "" (map angles pieces).
Proof.
  induction pieces as [|piece pieces IH]; [reflexivity|].
  destruct pieces as [|next pieces]; [simpl; reflexivity|].
  change (String.concat " " (piece :: next :: pieces))
    with (piece ++ " " ++ String.concat " " (next :: pieces)).
  rewrite !angles_append, IH. reflexivity.
Qed.

(** Collapsing white space moves no angle bracket. *)
Lemma angles_collapse (s : string) :
  angles (Re.ReplaceAllString Re.spaces s " ") = angles s.
Proof.
  unfold Re.ReplaceAllString.
  destruct (scan_weave Re.spaces (String.length s) s) as [seps [Hscan Hseps]].
  destruct (Re.scan (String.length s) Re.spaces s) as [gaps tail].
  destruct Hscan as [Hweave _].
  transitivity (angles (weave (gaps ++ [tail]) seps)); [|now rewrite Hweave].
  rewrite angles_concat_space, angles_weave; [reflexivity|].
  apply Forall_forall. intros sep Hsep. rewrite Forall_forall in Hseps.
  apply angles_spaces. now apply Matches_class_plus, Hseps.
Qed.

(** X20. Whatever the text service returns, the cleaned reply holds no tag:
    no [<] in it has a [>] anywhere after it. *)
Theorem cleaned_reply_has_no_tag :
  forall raw : string, hasTag (cleanAIResponse raw) = false.
Proof.
  intro raw. unfold cleanAIResponse.
  set (cut := trimFirstPrefix ["Assistant: "; "Bot: "; "AI: "] raw).
  assert (Hremoved : hasTag (Re.ReplaceAllString Re.tag cut "") = false)
    by (unfold Re.ReplaceAllString; now apply scan_tag).
  assert (Hcollapsed :
            hasTag (Re.ReplaceAllString Re.spaces (Re.ReplaceAllString Re.tag cut "") " ")
            = false)
    by (rewrite <- hasTag_angles, angles_collapse, hasTag_angles; exact Hremoved).
  destruct (TrimSpace_Trimmed
              (Re.ReplaceAllString Re.spaces (Re.ReplaceAllString Re.tag cut "") " "))
    as [before [after [Hsplit _]]].
  rewrite Hsplit in Hcollapsed.
  apply hasTag_append_false in Hcollapsed as [_ Hrest].
  now apply hasTag_append_false in Hrest as [Hreply _].
Qed.

End Tags.
